(** * sendEmail.ts: template parsing and message encoding

    A shallow embedding of [parseEmailTemplate], [createMessage] and the
    validation prefix of [sendEmail] from [src/sendEmail.ts], together with
    the JavaScript library operations they call ([String.prototype.split],
    [trim], [includes], [Array.prototype.join], [slice], [filter], property
    assignment and [Object.keys] on an ordinary object, [Buffer.from] with
    the default UTF-8 encoding and [toString('base64')]). *)

From Stdlib Require Import List NArith ZArith Lia Bool Ascii String Permutation.
Import ListNotations.

Local Open Scope N_scope.

(** ** JavaScript strings

    A JavaScript string is a finite sequence of 16-bit code units. *)

Module JSString.

Definition char16 := N.
Definition jsstring := list char16.

(** A string is well formed when every code unit fits in 16 bits. *)
Definition wf (s : jsstring) : Prop := Forall (fun c => c < 65536) s.

(** ASCII literals of the source text. *)
Definition lit (s : string) : jsstring :=
  List.map N_of_ascii (list_ascii_of_string s).

Fixpoint eqb (a b : jsstring) : bool :=
  match a, b with
  | [], [] => true
  | x :: a', y :: b' => (x =? y) && eqb a' b'
  | _, _ => false
  end.

(** [s === ''] *)
Definition is_empty (s : jsstring) : bool :=
  match s with [] => true | _ :: _ => false end.

(** [s.includes(c)] for a one-code-unit search string. *)
Definition includes (c : char16) (s : jsstring) : bool :=
  existsb (N.eqb c) s.

(** [s.split(sep)] for a one-code-unit separator: the pieces between the
    occurrences of [sep]; the empty string splits into one empty piece. *)
Fixpoint split (sep : char16) (s : jsstring) : list jsstring :=
  match s with
  | [] => [[]]
  | c :: r =>
      if c =? sep then [] :: split sep r
      else match split sep r with
           | p :: ps => (c :: p) :: ps
           | [] => [[c]]
           end
  end.

(** [parts.join(sep)] *)
Fixpoint join (sep : jsstring) (parts : list jsstring) : jsstring :=
  match parts with
  | [] => []
  | [p] => p
  | p :: ps => p ++ sep ++ join sep ps
  end.

(** WhiteSpace and LineTerminator code points of ECMAScript, the characters
    [trim] removes. *)
Definition is_ws (c : char16) : bool :=
  (c =? 9) || (c =? 10) || (c =? 11) || (c =? 12) || (c =? 13) || (c =? 32)
  || (c =? 160) || (c =? 5760) || ((8192 <=? c) && (c <=? 8202))
  || (c =? 8232) || (c =? 8233) || (c =? 8239) || (c =? 8287)
  || (c =? 12288) || (c =? 65279).

Fixpoint trimStart (s : jsstring) : jsstring :=
  match s with
  | c :: r => if is_ws c then trimStart r else s
  | [] => []
  end.

Definition trimEnd (s : jsstring) : jsstring := rev (trimStart (rev s)).

(** [s.trim()] *)
Definition trim (s : jsstring) : jsstring := trimEnd (trimStart s).

End JSString.
Export JSString.

Definition NL : char16 := 10.
Definition COLON : char16 := 58.
Definition SPACE : char16 := 32.

(** ** Ordinary objects used as string maps

    [const headers: EmailHeaders = {}] is an ordinary object whose prototype
    is [Object.prototype].  The model keeps its own enumerable string-keyed
    properties in creation order; a property value is a string or
    [undefined] ([None]), as the index signature of [EmailHeaders] says. *)

Module JSObject.

Definition value := option jsstring.
Definition object := list (jsstring * value).

Definition empty : object := [].

Definition PROTO : jsstring := lit "__proto__".

Fixpoint has_own (o : object) (k : jsstring) : bool :=
  match o with
  | [] => false
  | (k', _) :: r => JSString.eqb k' k || has_own r k
  end.

(** [o[k]] read.  A key that is not an own property is looked up in
    [Object.prototype], which has no property named [From], [To] or
    [Subject]; the program reads these three keys and the keys that
    [Object.keys] returns, so the own properties decide every read it
    makes. *)
Fixpoint get (o : object) (k : jsstring) : value :=
  match o with
  | [] => None
  | (k', v) :: r => if JSString.eqb k' k then v else get r k
  end.

Fixpoint update (o : object) (k : jsstring) (v : value) : object :=
  match o with
  | [] => []
  | (k', v') :: r =>
      if JSString.eqb k' k then (k', v) :: r else (k', v') :: update r k v
  end.

(** [o[k] = v] for a string or undefined [v].  The key [__proto__] is an
    accessor property of [Object.prototype], so the assignment calls its
    setter, which returns without effect when the value is neither an
    object nor null (ECMAScript, set Object.prototype.__proto__): no own
    property is created.  Every other inherited property is a writable data
    property, so any other key overwrites the own property in place or
    appends a new one. *)
Definition set (o : object) (k : jsstring) (v : value) : object :=
  if JSString.eqb k PROTO then o
  else if has_own o k then update o k v
  else o ++ [(k, v)].

Definition digit (c : char16) : option N :=
  if (48 <=? c) && (c <=? 57) then Some (c - 48) else None.

Fixpoint decimal (acc : N) (s : jsstring) : option N :=
  match s with
  | [] => Some acc
  | c :: r =>
      match digit c with
      | Some d => decimal (10 * acc + d) r
      | None => None
      end
  end.

(** A property key is an array index when it is the canonical decimal
    numeral of an integer below 2^32 - 1. *)
Definition array_index (k : jsstring) : option N :=
  match k with
  | [] => None
  | c :: r =>
      if (c =? 48) && negb (is_empty r) then None
      else match decimal 0 k with
           | Some n => if n <? 4294967295 then Some n else None
           | None => None
           end
  end.

Fixpoint insert_index (n : N) (k : jsstring) (l : list (N * jsstring))
  : list (N * jsstring) :=
  match l with
  | [] => [(n, k)]
  | (m, k') :: r =>
      if n <=? m then (n, k) :: l else (m, k') :: insert_index n k r
  end.

Fixpoint index_keys (o : object) : list (N * jsstring) :=
  match o with
  | [] => []
  | (k, _) :: r =>
      match array_index k with
      | Some n => insert_index n k (index_keys r)
      | None => index_keys r
      end
  end.

Fixpoint string_keys (o : object) : list jsstring :=
  match o with
  | [] => []
  | (k, _) :: r =>
      match array_index k with
      | Some _ => string_keys r
      | None => k :: string_keys r
      end
  end.

(** [Object.keys(o)]: the array-index keys in ascending numeric order, then
    the other keys in creation order (ECMAScript,
    OrdinaryOwnPropertyKeys). *)
Definition keys (o : object) : list jsstring :=
  List.map snd (index_keys o) ++ string_keys o.

(** The keys in the order in which the properties were created. *)
Definition creation_order (o : object) : list jsstring := List.map fst o.

End JSObject.

(** ** [Buffer.from(message)]: UTF-8 encoding of a string *)

Module Utf8.

Definition byte := N.

Definition is_high (c : char16) : bool := (55296 <=? c) && (c <=? 56319).
Definition is_low (c : char16) : bool := (56320 <=? c) && (c <=? 57343).

(** U+FFFD, written for a surrogate that has no partner. *)
Definition replacement : list byte := [239; 191; 189].

Definition encode_point (cp : N) : list byte :=
  if cp <? 128 then [cp]
  else if cp <? 2048 then [192 + cp / 64; 128 + cp mod 64]
  else if cp <? 65536 then
    [224 + cp / 4096; 128 + (cp / 64) mod 64; 128 + cp mod 64]
  else
    [240 + cp / 262144; 128 + (cp / 4096) mod 64;
     128 + (cp / 64) mod 64; 128 + cp mod 64].

Fixpoint encode (s : jsstring) : list byte :=
  match s with
  | [] => []
  | c :: r =>
      if is_high c then
        match r with
        | d :: r' =>
            if is_low d
            then encode_point (65536 + (c - 55296) * 1024 + (d - 56320))
                   ++ encode r'
            else replacement ++ encode r
        | [] => replacement
        end
      else if is_low c then replacement ++ encode r
      else encode_point c ++ encode r
  end.

(** *** Decoding

    [buffer.toString('utf8')] on a byte sequence that is valid UTF-8; [None]
    stands for a sequence that is not (the library then substitutes
    U+FFFD). *)

Definition is_cont (b : byte) : bool := (128 <=? b) && (b <? 192).

Fixpoint decode (bs : list byte) : option jsstring :=
  match bs with
  | [] => Some []
  | b0 :: r =>
      if b0 <? 128 then option_map (cons b0) (decode r)
      else if (194 <=? b0) && (b0 <? 224) then
        match r with
        | b1 :: r1 =>
            if is_cont b1
            then option_map (cons ((b0 - 192) * 64 + (b1 - 128))) (decode r1)
            else None
        | _ => None
        end
      else if (224 <=? b0) && (b0 <? 240) then
        match r with
        | b1 :: b2 :: r2 =>
            let cp := (b0 - 224) * 4096 + (b1 - 128) * 64 + (b2 - 128) in
            if is_cont b1 && is_cont b2 && (2048 <=? cp)
               && negb ((55296 <=? cp) && (cp <=? 57343))
            then option_map (cons cp) (decode r2)
            else None
        | _ => None
        end
      else if (240 <=? b0) && (b0 <? 245) then
        match r with
        | b1 :: b2 :: b3 :: r3 =>
            let cp := (b0 - 240) * 262144 + (b1 - 128) * 4096
                      + (b2 - 128) * 64 + (b3 - 128) in
            if is_cont b1 && is_cont b2 && is_cont b3
               && (65536 <=? cp) && (cp <? 1114112)
            then option_map
                   (fun t => 55296 + (cp - 65536) / 1024
                             :: 56320 + (cp - 65536) mod 1024 :: t)
                   (decode r3)
            else None
        | _ => None
        end
      else None
  end.

(** Every surrogate of the string is half of a pair. *)
Fixpoint paired (s : jsstring) : bool :=
  match s with
  | [] => true
  | c :: r =>
      if is_high c then
        match r with
        | d :: r' => is_low d && paired r'
        | [] => false
        end
      else negb (is_low c) && paired r
  end.

End Utf8.

(** ** [toString('base64')] and the URL-safe rewriting *)

Module Base64.

Definition alphabet : jsstring :=
  lit "ABCDEFGHIJKLMNOPQRSTUVWXYZabcdefghijklmnopqrstuvwxyz0123456789+/".

Definition PAD : char16 := 61.

Definition enc6 (n : N) : char16 := nth (N.to_nat n) alphabet 0.

(** Standard base64 with [=] padding. *)
Fixpoint encode (bs : list N) : jsstring :=
  match bs with
  | [] => []
  | [a] => [enc6 (a / 4); enc6 ((a mod 4) * 16); PAD; PAD]
  | [a; b] =>
      [enc6 (a / 4); enc6 ((a mod 4) * 16 + b / 16);
       enc6 ((b mod 16) * 4); PAD]
  | a :: b :: c :: r =>
      [enc6 (a / 4); enc6 ((a mod 4) * 16 + b / 16);
       enc6 ((b mod 16) * 4 + c / 64); enc6 (c mod 64)] ++ encode r
  end.

(** [s.replace(/x/g, y)] for single characters [x], [y]. *)
Definition replace_all (x y : char16) (s : jsstring) : jsstring :=
  List.map (fun c => if c =? x then y else c) s.

Fixpoint drop_pad (s : jsstring) : jsstring :=
  match s with
  | c :: r => if c =? PAD then drop_pad r else s
  | [] => []
  end.

(** [s.replace(/=+$/, '')]: the run of [=] that ends the string is removed. *)
Definition strip_padding (s : jsstring) : jsstring := rev (drop_pad (rev s)).

(** The three [replace] calls of [createMessage]. *)
Definition to_url (s : jsstring) : jsstring :=
  strip_padding (replace_all 47 95 (replace_all 43 45 s)).

(** *** Decoding

    The inverse transformation as the specification describes it: [-] back
    to [+], [_] back to [/], padding restored, then standard base64
    decoding.  ([sendEmail] decodes its own payload the same way for its
    debug log.) *)

Fixpoint index_of (c : char16) (l : jsstring) (i : N) : option N :=
  match l with
  | [] => None
  | x :: r => if x =? c then Some i else index_of c r (i + 1)
  end.

Definition dec6 (c : char16) : option N := index_of c alphabet 0.

(** Standard base64 decoding of a padded text; [None] on malformed input. *)
Fixpoint decode (s : jsstring) : option (list N) :=
  match s with
  | [] => Some []
  | c1 :: c2 :: c3 :: c4 :: r =>
      match dec6 c1, dec6 c2 with
      | Some s1, Some s2 =>
          if c4 =? PAD then
            match r with
            | [] =>
                if c3 =? PAD then Some [s1 * 4 + s2 / 16]
                else match dec6 c3 with
                     | Some s3 =>
                         Some [s1 * 4 + s2 / 16; (s2 mod 16) * 16 + s3 / 4]
                     | None => None
                     end
            | _ :: _ => None
            end
          else
            match dec6 c3, dec6 c4, decode r with
            | Some s3, Some s4, Some bs =>
                Some (s1 * 4 + s2 / 16 :: (s2 mod 16) * 16 + s3 / 4
                        :: (s3 mod 4) * 64 + s4 :: bs)
            | _, _, _ => None
            end
      | _, _ => None
      end
  | _ => None
  end.

(** Padding restored to a multiple of four characters. *)
Definition restore_padding (s : jsstring) : jsstring :=
  s ++ repeat PAD ((4 - List.length s mod 4) mod 4)%nat.

(** Decoding of the URL-safe text: [-] back to [+], [_] back to [/],
    padding restored, then standard decoding. *)
Definition decode_url (s : jsstring) : option (list N) :=
  decode (restore_padding (replace_all 95 47 (replace_all 45 43 s))).

End Base64.

(** ** Arrays *)

Module JSArray.

(** Relative index of [slice]: a negative index counts from the end. *)
Definition rel_index (len k : Z) : Z :=
  if (k <? 0)%Z then Z.max (len + k) 0 else Z.min k len.

(** [l.slice(start, end)]; [None] stands for an omitted [end]. *)
Definition slice {A : Type} (l : list A) (start : Z) (end_ : option Z)
  : list A :=
  let len := Z.of_nat (List.length l) in
  let k := rel_index len start in
  let final := match end_ with
               | Some e => rel_index len e
               | None => len
               end in
  firstn (Z.to_nat (final - k)) (skipn (Z.to_nat k) l).

End JSArray.

(** ** The program *)

Module SendEmail.

Import JSObject JSArray.

Record ParsedEmail := mkParsedEmail {
  headers : object;
  body : jsstring
}.

(** [parseEmailTemplate] returns [null] after writing one of three messages
    to [console.error]; the error value records which one. *)
Inductive ParseError :=
| TemplateNotFound (templateFile : jsstring)
| NoEmptyLine
| FieldRequired (missingFields : list jsstring).

Definition console_error (e : ParseError) : jsstring :=
  match e with
  | TemplateNotFound templateFile =>
      lit "Error: Template file '" ++ templateFile ++ lit "' not found!"
  | NoEmptyLine =>
      lit "Error: No empty line found to separate headers from body!"
  | FieldRequired missingFields =>
      lit "Error: " ++ join (lit ", ") missingFields
        ++ lit " field is required in email template!"
  end.

(** The loop that looks for the first empty line, entered at index [i] with
    [lines] the elements from [i] on; [-1] when the loop runs to the end. *)
Fixpoint findHeaderEnd (lines : list jsstring) (i : Z) : Z :=
  match lines with
  | [] => (-1)%Z
  | line :: rest =>
      if is_empty (trim line) then i else findHeaderEnd rest (i + 1)%Z
  end.

(** [const [key, ...valueParts] = line.split(':')] and the two trimmed
    strings of the assignment, for a line that includes a colon. *)
Definition parseHeaderLine (line : jsstring) : option (jsstring * jsstring) :=
  if includes COLON line then
    match split COLON line with
    | key :: valueParts => Some (trim key, trim (join [COLON] valueParts))
    | [] => None
    end
  else None.

(** The callback of [headerLines.forEach]. *)
Definition headerStep (headers : object) (line : jsstring) : object :=
  match parseHeaderLine line with
  | Some (k, v) => set headers k (Some v)
  | None => headers
  end.

Definition parseHeaders (headerLines : list jsstring) : object :=
  fold_left headerStep headerLines empty.

Definition MANDATORY_FIELDS : list jsstring :=
  [lit "From"; lit "To"; lit "Subject"].

(** [!v] for a string or undefined [v]. *)
Definition falsy (v : value) : bool :=
  match v with
  | None => true
  | Some s => is_empty s
  end.

(** [parseEmailTemplate] from the text of the file on. *)
Definition parseContent (content : jsstring) : ParseError + ParsedEmail :=
  let lines := split NL content in
  let headerEndIndex := findHeaderEnd lines 0 in
  if (headerEndIndex =? -1)%Z then inl NoEmptyLine
  else
    let headerLines := slice lines 0 (Some headerEndIndex) in
    let bodyLines := slice lines (headerEndIndex + 1) None in
    let headers := parseHeaders headerLines in
    let missingFields :=
      filter (fun field => falsy (get headers field)) MANDATORY_FIELDS in
    if (0 <? List.length missingFields)%nat then
      inl (FieldRequired missingFields)
    else inr (mkParsedEmail headers (join [NL] bodyLines)).

(** The files that exist, with their text read as UTF-8. *)
Definition FileSystem := jsstring -> option jsstring.

Definition parseEmailTemplate (fs : FileSystem) (templateFile : jsstring)
  : ParseError + ParsedEmail :=
  match fs templateFile with
  | None => inl (TemplateNotFound templateFile)
  | Some content => parseContent content
  end.

(** [headers[key] || ''] *)
Definition orEmpty (v : value) : jsstring :=
  match v with
  | Some s => if is_empty s then [] else s
  | None => []
  end.

(** One pushed header line: [`${key}: ${headers[key] || ''}`]. *)
Definition headerLine (headers : object) (key : jsstring) : jsstring :=
  key ++ [COLON; SPACE] ++ orEmpty (get headers key).

Definition messageParts (headers : object) (body : jsstring)
  : list jsstring :=
  (List.map (headerLine headers) (keys headers) ++ [[]]) ++ [body].

(** [messageParts.join('\n')] *)
Definition message (headers : object) (body : jsstring) : jsstring :=
  join [NL] (messageParts headers body).

Definition createMessage (headers : object) (body : jsstring) : jsstring :=
  Base64.to_url (Base64.encode (Utf8.encode (message headers body))).

(** [sendEmail] after [ensureAuthentication]: [gmail] is the authenticated
    client, if any, reduced to its send operation, which returns the message
    identifier or throws ([None]). *)
Inductive SendResult :=
| NotAuthenticated
| ParseFailed (e : ParseError)
| ToRequired
| SendThrew (raw : jsstring)
| Sent (raw : jsstring) (id : jsstring).

Definition sendEmail (gmail : option (jsstring -> option jsstring))
    (fs : FileSystem) (templateFile : jsstring) : SendResult :=
  match gmail with
  | None => NotAuthenticated
  | Some send =>
      match parseEmailTemplate fs templateFile with
      | inl e => ParseFailed e
      | inr parsed =>
          if falsy (get (headers parsed) (lit "To")) then ToRequired
          else
            let raw := createMessage (headers parsed) (body parsed) in
            match send raw with
            | Some id => Sent raw id
            | None => SendThrew raw
            end
      end
  end.

(** The boolean [sendEmail] resolves to. *)
Definition succeeded (r : SendResult) : bool :=
  match r with
  | Sent _ _ => true
  | _ => false
  end.

End SendEmail.

Import JSObject JSArray SendEmail.

(** ** Vocabulary of the specification

    What a template text says, described on the text itself and not through
    the parser's loop and slices. *)

(** The lines that precede the first line whose trimmed content is empty. *)
Fixpoint beforeBlank (lines : list jsstring) : list jsstring :=
  match lines with
  | [] => []
  | l :: r => if is_empty (trim l) then [] else l :: beforeBlank r
  end.

(** The key/value pairs written by the header lines that contain a colon. *)
Fixpoint writtenPairs (headerLines : list jsstring)
  : list (jsstring * jsstring) :=
  match headerLines with
  | [] => []
  | l :: r =>
      match parseHeaderLine l with
      | Some p => p :: writtenPairs r
      | None => writtenPairs r
      end
  end.

(** The value of the last pair whose key is [k]. *)
Fixpoint lastValue (k : jsstring) (ps : list (jsstring * jsstring))
  : option jsstring :=
  match ps with
  | [] => None
  | (k', v) :: r =>
      match lastValue k r with
      | Some v' => Some v'
      | None => if JSString.eqb k' k then Some v else None
      end
  end.

Fixpoint mem (k : jsstring) (l : list jsstring) : bool :=
  match l with
  | [] => false
  | x :: r => JSString.eqb x k || mem k r
  end.

(** The keys of [ks] not in [seen], each at its first occurrence. *)
Fixpoint firstOccurrences (seen ks : list jsstring) : list jsstring :=
  match ks with
  | [] => []
  | k :: r =>
      if mem k seen then firstOccurrences seen r
      else k :: firstOccurrences (k :: seen) r
  end.

(** The order in which a template's header lines introduce their keys. *)
Definition insertionOrder (headerLines : list jsstring) : list jsstring :=
  firstOccurrences [PROTO] (List.map fst (writtenPairs headerLines)).



(** Every key and every string value of the object is a well-formed
    string. *)
Definition wf_object (o : object) : Prop :=
  Forall (fun kv => wf (fst kv)
                    /\ match snd kv with Some v => wf v | None => True end) o.


(** The header lines of a template text. *)
Definition headerBlock (content : jsstring) : list jsstring :=
  beforeBlank (split NL content).

(** The field has no written value, or an empty one. *)
Definition absentOrEmpty (headerLines : list jsstring) (field : jsstring)
  : bool :=
  match lastValue field (writtenPairs headerLines) with
  | Some v => is_empty v
  | None => true
  end.

(** The header line the specification expects for a key. *)
Definition writtenLine (headerLines : list jsstring) (k : jsstring)
  : jsstring :=
  k ++ lit ": "
    ++ match lastValue k (writtenPairs headerLines) with
       | Some v => v
       | None => []
       end.

(** Keys without a colon and trimmed string values. *)
Definition trimmedEntry (kv : jsstring * value) : Prop :=
  ~ In COLON (fst kv) /\ exists x, snd kv = Some (trim x).

(** Keys and values free of line breaks. *)
Definition oneLineEntry (kv : jsstring * value) : Prop :=
  ~ In NL (fst kv) /\ forall v, snd kv = Some v -> ~ In NL v.

(** A text given by its lines. *)
Definition text (lines : list jsstring) : jsstring := join [NL] lines.

(** Sample templates and a file system that holds one template. *)
Definition sampleTemplate : jsstring :=
  text [lit "From: a@x.com";
        lit "To: b@x.com";
        lit "Subject: Hi";
        [];
        lit "Hello there"].

Definition duplicateTemplate : jsstring :=
  text [lit "From: a";
        lit "From: b";
        lit "To: c";
        lit "Subject: d";
        [];
        lit "x"].

Definition numericKeyTemplate : jsstring :=
  text [lit "From: a";
        lit "To: b";
        lit "Subject: c";
        lit "1: x";
        [];
        lit "hi"].

Definition protoTemplate : jsstring :=
  text [lit "From: x";
        lit "To: y";
        lit "Subject: z";
        lit "__proto__: a";
        lit "__proto__: b";
        [];
        lit "hello"].

Definition noSubjectTemplate : jsstring :=
  text [lit "From: a@x.com";
        lit "To:";
        lit "Note: no subject";
        [];
        lit "Hello"].


Definition tightTemplate : jsstring :=
  text [lit "From:a@x.com";
        lit "To: b@x.com";
        lit "Subject: Hi";
        [];
        lit "Hello"].


Definition defaultFile : jsstring := lit "email.html.eml".

Definition singleFile (content : jsstring) : FileSystem :=
  fun path => if JSString.eqb path defaultFile then Some content else None.

(** The characters of the base64 text without its padding, and the number
    of padding characters. *)
Fixpoint unpadded (bs : list N) : jsstring :=
  match bs with
  | [] => []
  | [a] => [Base64.enc6 (a / 4); Base64.enc6 ((a mod 4) * 16)]
  | [a; b] =>
      [Base64.enc6 (a / 4); Base64.enc6 ((a mod 4) * 16 + b / 16);
       Base64.enc6 ((b mod 16) * 4)]
  | a :: b :: c :: r =>
      [Base64.enc6 (a / 4); Base64.enc6 ((a mod 4) * 16 + b / 16);
       Base64.enc6 ((b mod 16) * 4 + c / 64); Base64.enc6 (c mod 64)]
        ++ unpadded r
  end.

Fixpoint paddingLength (bs : list N) : nat :=
  match bs with
  | [] => 0
  | [_] => 2
  | [_; _] => 1
  | _ :: _ :: _ :: r => paddingLength r
  end.

(** The 64 six-bit values, and the facts about the character of each that
    the decoder relies on: it decodes to the value, it is not the padding
    character, the URL-safe rewriting of it is undone by the inverse
    rewriting and is not the padding character either. *)
Definition sextets : list N := List.map N.of_nat (seq 0 64).

Definition toUrlChars (s : jsstring) : jsstring :=
  Base64.replace_all 47 95 (Base64.replace_all 43 45 s).

Definition fromUrlChars (s : jsstring) : jsstring :=
  Base64.replace_all 95 47 (Base64.replace_all 45 43 s).

Definition sextetChecked (n : N) : bool :=
  match Base64.dec6 (Base64.enc6 n) with
  | Some m => m =? n
  | None => false
  end
  && negb (Base64.enc6 n =? Base64.PAD)
  && JSString.eqb (fromUrlChars (toUrlChars [Base64.enc6 n])) [Base64.enc6 n]
  && negb (includes Base64.PAD (toUrlChars [Base64.enc6 n])).

(** A character of the base64 text that encodes six bits. *)
Definition sextetChar (c : char16) : Prop :=
  exists n, n < 64 /\ c = Base64.enc6 n.

(** Every element is a byte. *)
Definition bytes (bs : list N) : Prop := Forall (fun b => b < 256) bs.

(** The fields [parseEmailTemplate] reports for a header object. *)
Definition missingIn (h : object) : list jsstring :=
  filter (fun field => falsy (get h field)) MANDATORY_FIELDS.

(** ** Further vocabulary *)

Definition CR : char16 := 13.

(** A string of white space only. *)
Definition allWhitespace (w : jsstring) : Prop :=
  Forall (fun c => is_ws c = true) w.

(** The key of the entry is a trimmed string. *)
Definition trimmedKey (kv : jsstring * value) : Prop :=
  exists y, fst kv = trim y.

(** The characters of the URL-safe base64 alphabet: letters, digits, [-]
    and [_]. *)
Definition urlSafe (c : char16) : bool :=
  ((65 <=? c) && (c <=? 90)) || ((97 <=? c) && (c <=? 122))
  || ((48 <=? c) && (c <=? 57)) || (c =? 45) || (c =? 95).

Definition sextetUrlSafe (n : N) : bool :=
  forallb urlSafe (toUrlChars [Base64.enc6 n]).

(** Well-formedness, decided. *)
Definition wfb (s : jsstring) : bool := forallb (fun c => c <? 65536) s.

Definition wf_objectb (o : object) : bool :=
  forallb (fun kv => wfb (fst kv)
                     && match snd kv with Some v => wfb v | None => true end)
    o.

(** Whether a key is an array index, and the integer it denotes. *)
Definition isIndex (k : jsstring) : bool :=
  match array_index k with Some _ => true | None => false end.

Definition indexOf (k : jsstring) : N :=
  match array_index k with Some n => n | None => 0 end.

Fixpoint ascending (l : list N) : bool :=
  match l with
  | a :: (b :: _) as r => (a <=? b) && ascending r
  | _ => true
  end.

(** An object with the given keys, created in that order. *)
Definition objectWithKeys (ks : list jsstring) : object :=
  List.map (fun k => (k, None)) ks.

(** ** The sender and its collaborators

    [GmailSender] keeps two fields, [gmail] and [oAuth2Client].  What the
    Google libraries, the environment, the terminal and the clock answer is
    taken as given: a [World] fixes those answers, and every property below
    holds for all of them.  An answer of [None] from an operation that can
    throw or reject stands for the exception. *)

Module GmailSender.

Section Collaborators.

(** The credentials object of the OAuth2 client. *)
Context {Credentials : Type}.

Record World := mkWorld {
  (** [process.env] *)
  GOOGLE_CLIENT_ID : value;
  GOOGLE_CLIENT_SECRET : value;
  GOOGLE_REDIRECT_URI : value;
  (** the credentials of a client just constructed *)
  newCredentials : Credentials;
  JSON_parse : jsstring -> option Credentials;
  JSON_stringify : Credentials -> jsstring;
  (** the code typed at the prompt, exchanged by [getToken] *)
  getToken : option Credentials;
  (** [expiry_date] of the token information, possibly undefined *)
  getTokenInfo : Credentials -> option (option Z);
  Date_now : Z;
  (** the credentials after [refreshAccessToken] *)
  refreshAccessToken : Credentials -> option Credentials;
  (** [gmail.users.messages.send], returning the message identifier *)
  send : jsstring -> option jsstring
}.

(** [gmail] is null ([false]) or the client; [oAuth2Client] is null or the
    client with its credentials. *)
Record Sender := mkSender {
  gmail : bool;
  oAuth2Client : option Credentials
}.

(** [new GmailSender()] *)
Definition newSender : Sender := mkSender false None.

Definition TOKEN_PATH : jsstring := lit "token.json".

Definition writeFileSync (fs : FileSystem) (path data : jsstring)
  : FileSystem :=
  fun p => if JSString.eqb p path then Some data else fs p.

(** How a step that may throw ends, with the state it leaves. *)
Inductive Completion :=
| Returned (state : Sender * FileSystem)
| Threw (state : Sender * FileSystem).

(** [this.oAuth2Client.setCredentials(c)] *)
Definition setCredentials (s : Sender) (c : Credentials) : Sender :=
  mkSender (gmail s) (Some c).

Definition saveToken (w : World) (s : Sender) (fs : FileSystem)
  : FileSystem :=
  match oAuth2Client s with
  | None => fs
  | Some c => writeFileSync fs TOKEN_PATH (JSON_stringify w c)
  end.

Definition getAccessToken (w : World) (s : Sender) (fs : FileSystem)
  : Completion :=
  match oAuth2Client s with
  | None => Returned (s, fs)
  | Some _ =>
      match getToken w with
      | Some tokens =>
          let s' := setCredentials s tokens in
          Returned (s', saveToken w s' fs)
      | None => Threw (s, fs)
      end
  end.

(** [tokenInfo.expiry_date && tokenInfo.expiry_date < Date.now()] *)
Definition expired (expiry_date : option Z) (now : Z) : bool :=
  match expiry_date with
  | Some e => negb (e =? 0)%Z && (e <? now)%Z
  | None => false
  end.

(** The part of [ensureAuthentication] that follows the loading of the
    token, inside the [try]. *)
Definition checkToken (w : World) (s : Sender) (fs : FileSystem)
  : Completion :=
  match oAuth2Client s with
  | None => Threw (s, fs)
  | Some c =>
      match getTokenInfo w c with
      | None => Threw (s, fs)
      | Some expiry_date =>
          if expired expiry_date (Date_now w) then
            match refreshAccessToken w c with
            | None => Threw (s, fs)
            | Some c' =>
                let s' := setCredentials s c' in
                Returned (mkSender true (oAuth2Client s'),
                          saveToken w s' fs)
            end
          else Returned (mkSender true (oAuth2Client s), fs)
      end
  end.

Definition ensureAuthentication (w : World) (s : Sender) (fs : FileSystem)
  : Sender * FileSystem :=
  match oAuth2Client s with
  | Some _ => (s, fs)
  | None =>
      if falsy (GOOGLE_CLIENT_ID w) || falsy (GOOGLE_CLIENT_SECRET w)
         || falsy (GOOGLE_REDIRECT_URI w)
      then (s, fs)
      else
        let s1 := setCredentials s (newCredentials w) in
        let loaded :=
          match fs TOKEN_PATH with
          | Some text =>
              match JSON_parse w text with
              | Some token => Returned (setCredentials s1 token, fs)
              | None => Threw (s1, fs)
              end
          | None => getAccessToken w s1 fs
          end in
        match loaded with
        | Returned (s2, fs2) =>
            match checkToken w s2 fs2 with
            | Returned state => state
            | Threw state => state
            end
        | Threw state => state
        end
  end.

(** [sendEmail] with the authentication that precedes it. *)
Definition sendEmail (w : World) (s : Sender) (fs : FileSystem)
    (templateFile : jsstring) : Sender * FileSystem * SendResult :=
  let (s', fs') := ensureAuthentication w s fs in
  (s', fs',
   SendEmail.sendEmail (if gmail s' then Some (send w) else None)
     fs' templateFile).

(** [main]: a new sender and the default template file. *)
Definition main (w : World) (fs : FileSystem)
  : Sender * FileSystem * SendResult :=
  sendEmail w newSender fs defaultFile.

(** [gmail] is set only together with [oAuth2Client]. *)
Definition consistent (s : Sender) : Prop :=
  gmail s = true -> oAuth2Client s <> None.

(** One of the three variables is missing or empty. *)
Definition environmentIncomplete (w : World) : bool :=
  falsy (GOOGLE_CLIENT_ID w) || falsy (GOOGLE_CLIENT_SECRET w)
  || falsy (GOOGLE_REDIRECT_URI w).

End Collaborators.

(** Sample worlds, with a single possible credentials object: one where
    the exchange of the code is rejected, one where everything succeeds,
    one without a client secret. *)
Definition rejectingWorld : @World unit :=
  mkWorld (Some (lit "id")) (Some (lit "secret")) (Some (lit "uri"))
    tt (fun _ => Some tt) (fun _ => lit "{}") None
    (fun _ => Some (Some 1%Z)) 0%Z (fun _ => Some tt)
    (fun _ => Some (lit "m1")).

Definition acceptingWorld : @World unit :=
  mkWorld (Some (lit "id")) (Some (lit "secret")) (Some (lit "uri"))
    tt (fun _ => Some tt) (fun _ => lit "{}") (Some tt)
    (fun _ => Some (Some 1%Z)) 0%Z (fun _ => Some tt)
    (fun _ => Some (lit "m1")).

Definition incompleteWorld : @World unit :=
  mkWorld (Some (lit "id")) None (Some (lit "uri"))
    tt (fun _ => Some tt) (fun _ => lit "{}") (Some tt)
    (fun _ => Some (Some 1%Z)) 0%Z (fun _ => Some tt)
    (fun _ => Some (lit "m1")).

End GmailSender.

(** ** Proof steps *)

(** Linear arithmetic with division and remainder by constants. *)
Ltac div_lia := zify; Z.to_euclidean_division_equations; lia.

(** Boolean comparisons turned into the propositions they decide. *)
Ltac bool_true :=
  repeat match goal with
         | |- _ && _ = true => apply andb_true_iff; split
         | |- negb _ = true => apply negb_true_iff
         | |- _ && _ = false => apply andb_false_iff
         | |- (_ <=? _) = true => apply N.leb_le
         | |- (_ <? _) = true => apply N.ltb_lt
         | |- (_ <=? _) = false => apply N.leb_gt
         | |- (_ <? _) = false => apply N.ltb_ge
         end.

(** * Properties *)

(** ** Strings *)

Section StringFacts.

Lemma eqb_refl (a : jsstring) : JSString.eqb a a = true.
Proof.
  induction a as [|x a IH]; simpl; [reflexivity|].
  now rewrite N.eqb_refl, IH.
Qed.

Lemma eqb_eq (a b : jsstring) : JSString.eqb a b = true <-> a = b.
Proof.
  split.
  - revert b; induction a as [|x a IH]; intros [|y b] H; simpl in H;
      try discriminate; [reflexivity|].
    apply andb_true_iff in H as [Hxy Hab].
    apply N.eqb_eq in Hxy. apply IH in Hab. now subst.
  - intros ->. apply eqb_refl.
Qed.

Lemma eqb_neq (a b : jsstring) : JSString.eqb a b = false <-> a <> b.
Proof.
  split.
  - intros H E. apply eqb_eq in E. congruence.
  - intros H. destruct (JSString.eqb a b) eqn:E; [|reflexivity].
    apply eqb_eq in E. contradiction.
Qed.

Lemma is_empty_true (s : jsstring) : is_empty s = true <-> s = [].
Proof. destruct s; simpl; split; congruence. Qed.

Lemma is_empty_false (s : jsstring) : is_empty s = false <-> s <> [].
Proof. destruct s; simpl; split; congruence. Qed.

Lemma includes_In (c : char16) (s : jsstring) :
  includes c s = true <-> In c s.
Proof.
  unfold includes. rewrite existsb_exists. split.
  - intros (x & Hx & E). apply N.eqb_eq in E. now subst.
  - intros H. exists c. split; [assumption|apply N.eqb_refl].
Qed.

Lemma includes_not_In (c : char16) (s : jsstring) :
  includes c s = false <-> ~ In c s.
Proof.
  rewrite <- includes_In. destruct (includes c s); split; congruence.
Qed.

Lemma split_not_nil (sep : char16) (s : jsstring) : split sep s <> [].
Proof.
  destruct s as [|c r]; simpl; [discriminate|].
  destruct (c =? sep); [discriminate|].
  destruct (split sep r); discriminate.
Qed.

Lemma split_no_sep (sep : char16) (s : jsstring) : split sep s = [s] <-> ~ In sep s.
Proof.
  induction s as [|c r IH]; simpl.
  - split; [intros _ []|reflexivity].
  - destruct (c =? sep) eqn:E.
    + apply N.eqb_eq in E. subst. split.
      * intros H. injection H as H _. discriminate.
      * intros H. exfalso. apply H. now left.
    + apply N.eqb_neq in E. split.
      * intros H [Hc|Hin]; [congruence|].
        destruct (split sep r) as [|p ps] eqn:Es.
        -- now apply (split_not_nil sep r).
        -- injection H as Hp Hps. subst. now apply IH.
      * intros H. assert (Hr : split sep r = [r]) by (apply IH; tauto).
        now rewrite Hr.
Qed.

(** Text up to the first separator, and the rest split again. *)
Lemma split_app (sep : char16) (a b : jsstring) :
  ~ In sep a -> split sep (a ++ sep :: b) = a :: split sep b.
Proof.
  induction a as [|c a IH]; simpl; intros H.
  - now rewrite N.eqb_refl.
  - destruct (c =? sep) eqn:E.
    + apply N.eqb_eq in E. exfalso. apply H. now left.
    + rewrite IH by tauto. reflexivity.
Qed.

Lemma split_pieces (sep : char16) (s : jsstring) :
  Forall (fun p => ~ In sep p) (split sep s).
Proof.
  induction s as [|c r IH]; simpl.
  - constructor; [intros []|constructor].
  - destruct (c =? sep) eqn:E.
    + constructor; [intros []|assumption].
    + apply N.eqb_neq in E.
      destruct (split sep r) as [|p ps]; [repeat constructor; intros [?|[]]; congruence|].
      inversion IH; subst. constructor; [|assumption].
      intros [?|?]; [congruence|contradiction].
Qed.

Lemma join_cons (sep p : jsstring) (ps : list jsstring) :
  ps <> [] -> join sep (p :: ps) = p ++ sep ++ join sep ps.
Proof. destruct ps; [congruence|reflexivity]. Qed.

Lemma join_split (sep : char16) (s : jsstring) :
  join [sep] (split sep s) = s.
Proof.
  induction s as [|c r IH]; simpl; [reflexivity|].
  destruct (c =? sep) eqn:E.
  - apply N.eqb_eq in E. subst.
    rewrite join_cons by apply split_not_nil. simpl. now rewrite IH.
  - destruct (split sep r) as [|p ps] eqn:Es.
    + now apply split_not_nil in Es.
    + destruct ps as [|q qs]; simpl in *; now rewrite <- IH.
Qed.

Lemma split_join (sep : char16) (ps : list jsstring) :
  ps <> [] -> Forall (fun p => ~ In sep p) ps ->
  split sep (join [sep] ps) = ps.
Proof.
  induction ps as [|p ps IH]; [congruence|]. intros _ H.
  inversion H as [|? ? Hp Hps]; subst.
  destruct ps as [|q qs].
  - simpl. now apply split_no_sep.
  - rewrite join_cons by discriminate. simpl app.
    rewrite split_app by assumption. f_equal. apply IH; [discriminate|assumption].
Qed.

Lemma join_app (sep : jsstring) (ps qs : list jsstring) :
  ps <> [] -> qs <> [] ->
  join sep (ps ++ qs) = join sep ps ++ sep ++ join sep qs.
Proof.
  induction ps as [|p ps IH]; [congruence|]. intros _ Hq.
  destruct ps as [|p' ps'].
  - simpl app. now rewrite join_cons.
  - change ((p :: p' :: ps') ++ qs) with (p :: ((p' :: ps') ++ qs)).
    rewrite join_cons by discriminate.
    rewrite IH by (discriminate || assumption).
    rewrite (join_cons sep p (p' :: ps')) by discriminate.
    now rewrite <- !app_assoc.
Qed.

(** *** Trimming *)

Lemma trimStart_In (x : char16) (s : jsstring) :
  In x (trimStart s) -> In x s.
Proof.
  induction s as [|c r IH]; simpl; [tauto|].
  destruct (is_ws c); simpl; tauto.
Qed.

Lemma trim_In (x : char16) (s : jsstring) : In x (trim s) -> In x s.
Proof.
  unfold trim, trimEnd. intros H.
  apply in_rev, trimStart_In, in_rev, trimStart_In in H. exact H.
Qed.

Lemma trimStart_head (s : jsstring) :
  match trimStart s with
  | c :: _ => is_ws c = false
  | [] => True
  end.
Proof.
  induction s as [|c r IH]; simpl; [exact I|].
  destruct (is_ws c) eqn:E; [exact IH|exact E].
Qed.

Lemma trimStart_snoc (a : jsstring) (c : char16) :
  is_ws c = false -> trimStart (a ++ [c]) = trimStart a ++ [c].
Proof.
  intros Hc. induction a as [|x a IH]; simpl.
  - now rewrite Hc.
  - destruct (is_ws x); [exact IH|reflexivity].
Qed.

Lemma trimEnd_cons (c : char16) (r : jsstring) :
  is_ws c = false -> trimEnd (c :: r) = c :: trimEnd r.
Proof.
  intros Hc. unfold trimEnd. simpl rev.
  rewrite trimStart_snoc by assumption. rewrite rev_app_distr. reflexivity.
Qed.

(** A trimmed string is empty or begins with a character that is not white
    space. *)
Lemma trim_head (s : jsstring) :
  match trim s with
  | c :: _ => is_ws c = false
  | [] => True
  end.
Proof.
  unfold trim. pose proof (trimStart_head s) as H.
  destruct (trimStart s) as [|c r]; [exact I|].
  rewrite trimEnd_cons by assumption. exact H.
Qed.

Lemma wf_app (a b : jsstring) : wf (a ++ b) <-> wf a /\ wf b.
Proof. apply Forall_app. Qed.

End StringFacts.

(** ** The header/body boundary *)

Section Boundary.

Lemma beforeBlank_nonblank (lines : list jsstring) :
  Forall (fun l => trim l <> []) (beforeBlank lines).
Proof.
  induction lines as [|l r IH]; simpl; [constructor|].
  destruct (is_empty (trim l)) eqn:E; [constructor|].
  constructor; [now apply is_empty_false|assumption].
Qed.

Lemma beforeBlank_app (hl : list jsstring) (b : jsstring) (rest : list jsstring) :
  Forall (fun l => trim l <> []) hl -> trim b = [] ->
  beforeBlank (hl ++ b :: rest) = hl.
Proof.
  intros Hhl Hb. induction Hhl as [|l hl Hl _ IH]; simpl.
  - now rewrite Hb.
  - apply is_empty_false in Hl. now rewrite Hl, IH.
Qed.

(** The loop either finds no empty line, or stops at the first one. *)
Lemma findHeaderEnd_spec (lines : list jsstring) (i : Z) :
  (Forall (fun l => trim l <> []) lines
   /\ findHeaderEnd lines i = (-1)%Z)
  \/ (exists b rest,
        lines = beforeBlank lines ++ b :: rest
        /\ trim b = []
        /\ findHeaderEnd lines i
           = (i + Z.of_nat (List.length (beforeBlank lines)))%Z).
Proof.
  revert i. induction lines as [|l r IH]; intros i; simpl.
  - left. split; [constructor|reflexivity].
  - destruct (is_empty (trim l)) eqn:E.
    + right. exists l, r. apply is_empty_true in E. simpl.
      repeat split; [assumption|lia].
    + apply is_empty_false in E.
      destruct (IH (i + 1)%Z) as [[Hall Hres]|(b & rest & Hl & Hb & Hres)].
      * left. split; [now constructor|assumption].
      * right. exists b, rest. simpl. rewrite <- Hl.
        repeat split; [assumption|]. rewrite Hres. lia.
Qed.

Lemma findHeaderEnd_found (lines : list jsstring) (l : jsstring) (i : Z) :
  In l lines -> trim l = [] -> (0 <= i)%Z ->
  (i <= findHeaderEnd lines i)%Z.
Proof.
  intros Hin Hl Hi.
  destruct (findHeaderEnd_spec lines i) as [[Hall _]|(b & rest & _ & _ & ->)].
  - rewrite Forall_forall in Hall. now apply Hall in Hin.
  - lia.
Qed.

Lemma slice_headers {A : Type} (hl : list A) (b : A) (rest : list A) :
  slice (hl ++ b :: rest) 0 (Some (Z.of_nat (List.length hl))) = hl.
Proof.
  unfold slice, rel_index. rewrite length_app. simpl List.length.
  replace (0 <? 0)%Z with false by reflexivity.
  replace (Z.of_nat (List.length hl) <? 0)%Z with false
    by (symmetry; apply Z.ltb_ge; lia).
  rewrite !Z.min_l by lia. simpl skipn.
  rewrite Z.sub_0_r, Nat2Z.id, firstn_app, Nat.sub_diag, firstn_all.
  simpl. apply app_nil_r.
Qed.

Lemma slice_body {A : Type} (hl : list A) (b : A) (rest : list A) :
  slice (hl ++ b :: rest) (Z.of_nat (List.length hl) + 1) None = rest.
Proof.
  unfold slice, rel_index. rewrite length_app. simpl List.length.
  replace (Z.of_nat (List.length hl) + 1 <? 0)%Z with false
    by (symmetry; apply Z.ltb_ge; lia).
  rewrite Z.min_l by lia.
  replace (Z.to_nat (Z.of_nat (List.length hl) + 1))
    with (List.length hl + 1)%nat by lia.
  rewrite skipn_app.
  replace (List.length hl + 1 - List.length hl)%nat with 1%nat by lia.
  rewrite skipn_all2 by lia. simpl.
  apply firstn_all2. lia.
Qed.

Lemma parseContent_no_blank (content : jsstring) :
  Forall (fun l => trim l <> []) (split NL content) ->
  parseContent content = inl NoEmptyLine.
Proof.
  intros Hall. unfold parseContent.
  destruct (findHeaderEnd_spec (split NL content) 0)
    as [[_ ->]|(b & rest & Hl & Hb & _)]; [reflexivity|].
  rewrite Forall_forall in Hall. exfalso. apply (Hall b); [|assumption].
  rewrite Hl. apply in_or_app. right. now left.
Qed.

Lemma parseContent_blank (content : jsstring) (hl : list jsstring)
    (b : jsstring) (rest : list jsstring) :
  split NL content = hl ++ b :: rest ->
  Forall (fun l => trim l <> []) hl -> trim b = [] ->
  parseContent content =
    match missingIn (parseHeaders hl) with
    | [] => inr (mkParsedEmail (parseHeaders hl) (join [NL] rest))
    | _ :: _ => inl (FieldRequired (missingIn (parseHeaders hl)))
    end.
Proof.
  intros Hsplit Hhl Hb. unfold parseContent. rewrite Hsplit.
  destruct (findHeaderEnd_spec (hl ++ b :: rest) 0)
    as [[Hall _]|(b' & rest' & _ & _ & Hres)].
  - rewrite Forall_forall in Hall. exfalso. apply (Hall b); [|assumption].
    apply in_or_app. right. now left.
  - rewrite beforeBlank_app in Hres by assumption. rewrite Hres.
    replace (0 + Z.of_nat (List.length hl) =? -1)%Z with false
      by (symmetry; apply Z.eqb_neq; lia).
    rewrite Z.add_0_l, slice_headers, slice_body.
    fold (missingIn (parseHeaders hl)).
    destruct (missingIn (parseHeaders hl)); reflexivity.
Qed.

(** A text with an empty line, cut at the first one. *)
Lemma blank_decomposition (content : jsstring) :
  (exists l, In l (split NL content) /\ trim l = []) ->
  exists b rest,
    split NL content = beforeBlank (split NL content) ++ b :: rest
    /\ trim b = [] /\ ~ In NL b.
Proof.
  intros (l & Hin & Hl).
  destruct (findHeaderEnd_spec (split NL content) 0)
    as [[Hall _]|(b & rest & Hsplit & Hb & _)].
  - rewrite Forall_forall in Hall. now apply Hall in Hin.
  - exists b, rest. repeat split; try assumption.
    pose proof (split_pieces NL content) as Hp.
    rewrite Forall_forall in Hp. apply Hp. rewrite Hsplit.
    apply in_or_app. right. now left.
Qed.

(** The text is the lines up to and including the first empty one, and, if
    a line break follows, that line break and the rest. *)
Lemma content_after_blank (content : jsstring) (hl : list jsstring)
    (b : jsstring) (rest : list jsstring) :
  split NL content = hl ++ b :: rest ->
  (rest = [] /\ content = join [NL] (hl ++ [b]))
  \/ (rest <> [] /\ content = join [NL] (hl ++ [b]) ++ NL :: join [NL] rest).
Proof.
  intros Hsplit. pose proof (join_split NL content) as Hj.
  rewrite Hsplit in Hj. destruct rest as [|r rs].
  - left. split; [reflexivity|now symmetry].
  - right. split; [discriminate|].
    replace (hl ++ b :: r :: rs) with ((hl ++ [b]) ++ r :: rs) in Hj
      by now rewrite <- app_assoc.
    rewrite join_app in Hj; [|now destruct hl|discriminate].
    now symmetry.
Qed.

End Boundary.

(** ** Objects *)

Section ObjectFacts.

Lemma has_own_mem (o : object) (k : jsstring) :
  has_own o k = mem k (creation_order o).
Proof.
  induction o as [|[k' v'] r IH]; simpl; [reflexivity|]. now rewrite IH.
Qed.

Lemma mem_In (k : jsstring) (l : list jsstring) : mem k l = true <-> In k l.
Proof.
  induction l as [|x r IH]; simpl; [split; [discriminate|tauto]|].
  rewrite orb_true_iff, eqb_eq, IH. reflexivity.
Qed.

Lemma mem_not_In (k : jsstring) (l : list jsstring) :
  mem k l = false <-> ~ In k l.
Proof. rewrite <- mem_In. destruct (mem k l); split; congruence. Qed.

Lemma get_absent (o : object) (k : jsstring) :
  has_own o k = false -> get o k = None.
Proof.
  induction o as [|[k' v'] r IH]; simpl; [reflexivity|].
  intros H. apply orb_false_iff in H as [H1 H2]. rewrite H1. now apply IH.
Qed.

Lemma get_update (o : object) (k k' : jsstring) (v : value) :
  has_own o k = true ->
  get (update o k v) k' = if JSString.eqb k k' then v else get o k'.
Proof.
  induction o as [|[k0 v0] r IH]; simpl; [discriminate|].
  destruct (JSString.eqb k0 k) eqn:E0; simpl.
  - intros _. apply eqb_eq in E0. subst k0.
    destruct (JSString.eqb k k'); reflexivity.
  - intros H. destruct (JSString.eqb k0 k') eqn:E1.
    + apply eqb_eq in E1. subst k0.
      apply eqb_neq in E0.
      assert (E : JSString.eqb k k' = false) by (apply eqb_neq; congruence).
      now rewrite E.
    + now apply IH.
Qed.

Lemma get_snoc (o : object) (k k' : jsstring) (v : value) :
  has_own o k = false ->
  get (o ++ [(k, v)]) k' = if JSString.eqb k k' then v else get o k'.
Proof.
  induction o as [|[k0 v0] r IH]; simpl.
  - intros _. reflexivity.
  - intros H. apply orb_false_iff in H as [H1 H2].
    destruct (JSString.eqb k0 k') eqn:E1.
    + apply eqb_eq in E1. subst k0.
      assert (E : JSString.eqb k k' = false).
      { apply eqb_neq. apply eqb_neq in H1. congruence. }
      now rewrite E.
    + now apply IH.
Qed.

(** Reading after a write. *)
Lemma get_set (o : object) (k k' : jsstring) (v : value) :
  get (set o k v) k' =
    if JSString.eqb k PROTO then get o k'
    else if JSString.eqb k k' then v else get o k'.
Proof.
  unfold set. destruct (JSString.eqb k PROTO); [reflexivity|].
  destruct (has_own o k) eqn:E.
  - now apply get_update.
  - now apply get_snoc.
Qed.

Lemma creation_order_update (o : object) (k : jsstring) (v : value) :
  creation_order (update o k v) = creation_order o.
Proof.
  unfold creation_order.
  induction o as [|[k0 v0] r IH]; simpl; [reflexivity|].
  destruct (JSString.eqb k0 k); simpl; [reflexivity|]. now rewrite IH.
Qed.

(** A write keeps the order of the existing keys; a new key goes last. *)
Lemma creation_order_set (o : object) (k : jsstring) (v : value) :
  creation_order (set o k v) =
    if mem k (PROTO :: creation_order o) then creation_order o
    else creation_order o ++ [k].
Proof.
  unfold set.
  change (mem k (PROTO :: creation_order o))
    with (JSString.eqb PROTO k || mem k (creation_order o)).
  rewrite <- has_own_mem.
  destruct (JSString.eqb k PROTO) eqn:E.
  - apply eqb_eq in E. subst. now rewrite eqb_refl.
  - assert (E' : JSString.eqb PROTO k = false).
    { apply eqb_neq. apply eqb_neq in E. congruence. }
    rewrite E'. simpl. destruct (has_own o k).
    + apply creation_order_update.
    + unfold creation_order. now rewrite map_app.
Qed.

Lemma creation_order_set_NoDup (o : object) (k : jsstring) (v : value) :
  NoDup (creation_order o) -> NoDup (creation_order (set o k v)).
Proof.
  intros H. rewrite creation_order_set.
  destruct (mem k (PROTO :: creation_order o)) eqn:E; [assumption|].
  change (mem k (PROTO :: creation_order o))
    with (JSString.eqb PROTO k || mem k (creation_order o)) in E.
  apply orb_false_iff in E as [_ E]. apply mem_not_In in E.
  apply NoDup_rev in H. rewrite <- (rev_involutive (_ ++ [k])).
  apply NoDup_rev. rewrite rev_app_distr. simpl.
  constructor; [|assumption]. now rewrite <- in_rev.
Qed.

Lemma insert_index_perm (n : N) (k : jsstring) (l : list (N * jsstring)) :
  Permutation (insert_index n k l) ((n, k) :: l).
Proof.
  induction l as [|[m k'] r IH]; simpl; [apply Permutation_refl|].
  destruct (n <=? m); [apply Permutation_refl|].
  eapply perm_trans; [apply perm_skip, IH|apply perm_swap].
Qed.

(** [Object.keys] lists every own key once. *)
Lemma keys_perm (o : object) : Permutation (keys o) (creation_order o).
Proof.
  unfold keys, creation_order.
  induction o as [|[k v] r IH]; simpl; [apply Permutation_refl|].
  destruct (array_index k) as [n|].
  - eapply perm_trans.
    + apply Permutation_app_tail, Permutation_map, insert_index_perm.
    + simpl. now apply perm_skip.
  - eapply perm_trans; [apply Permutation_sym, Permutation_middle|].
    now apply perm_skip.
Qed.

(** Without array-index keys, [Object.keys] is the creation order. *)
Lemma keys_no_index (o : object) :
  (forall k, In k (creation_order o) -> array_index k = None) ->
  keys o = creation_order o.
Proof.
  unfold keys, creation_order.
  induction o as [|[k v] r IH]; simpl; intros H; [reflexivity|].
  rewrite (H k) by now left.
  assert (Hr : forall k', In k' (List.map fst r) -> array_index k' = None)
    by (intros; apply H; now right).
  specialize (IH Hr).
  destruct (index_keys r) as [|x xs] eqn:E.
  - simpl in *. now rewrite IH.
  - exfalso. clear IH H. revert x xs E.
    induction r as [|[k0 v0] r' IHr]; simpl; intros x xs E; [discriminate|].
    rewrite (Hr k0) in E by now left.
    eapply IHr; [|exact E]. intros; apply Hr; now right.
Qed.

End ObjectFacts.

(** ** Header lines *)

Section HeaderFacts.

Lemma parseHeaderLine_colon (k v : jsstring) :
  ~ In COLON k ->
  parseHeaderLine (k ++ COLON :: v) = Some (trim k, trim v).
Proof.
  intros Hk. unfold parseHeaderLine.
  assert (Hin : includes COLON (k ++ COLON :: v) = true).
  { apply includes_In, in_or_app. right. now left. }
  rewrite Hin, split_app by assumption. now rewrite join_split.
Qed.

Lemma parseHeaderLine_no_colon (line : jsstring) :
  ~ In COLON line -> parseHeaderLine line = None.
Proof.
  intros H. unfold parseHeaderLine.
  apply includes_not_In in H. now rewrite H.
Qed.

(** A parsed key has no colon and a parsed value is a trimmed string. *)
Lemma parseHeaderLine_shape (line k v : jsstring) :
  parseHeaderLine line = Some (k, v) ->
  ~ In COLON k /\ exists x, v = trim x.
Proof.
  unfold parseHeaderLine. destruct (includes COLON line); [|discriminate].
  pose proof (split_pieces COLON line) as Hp.
  destruct (split COLON line) as [|key parts]; [discriminate|].
  intros H. injection H as <- <-. inversion Hp; subst. split.
  - intros Hc. now apply trim_In in Hc.
  - eexists. reflexivity.
Qed.

Lemma parseHeaders_cons (l : jsstring) (r : list jsstring) (o : object) :
  fold_left headerStep (l :: r) o = fold_left headerStep r (headerStep o l).
Proof. reflexivity. Qed.

(** What a read finds after the header lines have been processed. *)
Lemma get_fold (hl : list jsstring) (o : object) (k : jsstring) :
  get (fold_left headerStep hl o) k =
    if JSString.eqb k PROTO then get o k
    else match lastValue k (writtenPairs hl) with
         | Some v => Some v
         | None => get o k
         end.
Proof.
  revert o. induction hl as [|l r IH]; intros o.
  - simpl. destruct (JSString.eqb k PROTO); reflexivity.
  - rewrite parseHeaders_cons, IH. unfold headerStep. simpl writtenPairs.
    destruct (parseHeaderLine l) as [[k' v]|]; [|reflexivity].
    simpl lastValue. rewrite get_set.
    destruct (JSString.eqb k PROTO) eqn:Ek.
    + destruct (JSString.eqb k' PROTO) eqn:Ek'; [reflexivity|].
      destruct (JSString.eqb k' k) eqn:E; [|reflexivity].
      apply eqb_eq in E. congruence.
    + destruct (lastValue k (writtenPairs r)); [reflexivity|].
      destruct (JSString.eqb k' k) eqn:E.
      * apply eqb_eq in E. subst k'. now rewrite Ek.
      * destruct (JSString.eqb k' PROTO); reflexivity.
Qed.

Lemma get_parseHeaders (hl : list jsstring) (k : jsstring) :
  get (parseHeaders hl) k =
    if JSString.eqb k PROTO then None else lastValue k (writtenPairs hl).
Proof.
  unfold parseHeaders. rewrite get_fold. simpl.
  destruct (JSString.eqb k PROTO); [reflexivity|].
  destruct (lastValue k (writtenPairs hl)); reflexivity.
Qed.

Lemma firstOccurrences_ext (s1 s2 ks : list jsstring) :
  (forall x, mem x s1 = mem x s2) ->
  firstOccurrences s1 ks = firstOccurrences s2 ks.
Proof.
  revert s1 s2. induction ks as [|k r IH]; intros s1 s2 H; simpl;
    [reflexivity|].
  rewrite <- H. destruct (mem k s1); [now apply IH|].
  f_equal. apply IH. intros x. simpl. now rewrite H.
Qed.

Lemma firstOccurrences_cons (seen : list jsstring) (k : jsstring)
    (r : list jsstring) :
  firstOccurrences seen (k :: r) =
    if mem k seen then firstOccurrences seen r
    else k :: firstOccurrences (k :: seen) r.
Proof. reflexivity. Qed.

Lemma mem_app (x : jsstring) (a b : list jsstring) :
  mem x (a ++ b) = mem x a || mem x b.
Proof.
  induction a as [|y a IH]; simpl; [reflexivity|].
  now rewrite IH, orb_assoc.
Qed.

(** The properties are created in the order in which the header lines first
    name their keys. *)
Lemma creation_order_fold (hl : list jsstring) (o : object) :
  creation_order (fold_left headerStep hl o) =
    creation_order o
      ++ firstOccurrences (PROTO :: creation_order o)
           (List.map fst (writtenPairs hl)).
Proof.
  revert o. induction hl as [|l r IH]; intros o.
  - simpl. now rewrite app_nil_r.
  - rewrite parseHeaders_cons, IH. unfold headerStep. simpl writtenPairs.
    destruct (parseHeaderLine l) as [[k v]|]; [|reflexivity].
    simpl List.map. rewrite firstOccurrences_cons, creation_order_set.
    destruct (mem k (PROTO :: creation_order o)) eqn:E; [reflexivity|].
    rewrite <- app_assoc. change ([k] ++ ?x) with (k :: x). do 2 f_equal.
    apply firstOccurrences_ext. intros x.
    change (mem x (PROTO :: creation_order o ++ [k]))
      with (JSString.eqb PROTO x || mem x (creation_order o ++ [k])).
    change (mem x (k :: PROTO :: creation_order o))
      with (JSString.eqb k x
            || (JSString.eqb PROTO x || mem x (creation_order o))).
    rewrite mem_app.
    change (mem x [k]) with (JSString.eqb k x || false).
    destruct (JSString.eqb PROTO x), (JSString.eqb k x),
      (mem x (creation_order o)); reflexivity.
Qed.

Lemma creation_order_parseHeaders (hl : list jsstring) :
  creation_order (parseHeaders hl) = insertionOrder hl.
Proof. unfold parseHeaders. now rewrite creation_order_fold. Qed.

Lemma fold_NoDup (hl : list jsstring) (o : object) :
  NoDup (creation_order o) ->
  NoDup (creation_order (fold_left headerStep hl o)).
Proof.
  revert o. induction hl as [|l r IH]; intros o H; [exact H|].
  rewrite parseHeaders_cons. apply IH. unfold headerStep.
  destruct (parseHeaderLine l) as [[k v]|]; [|assumption].
  now apply creation_order_set_NoDup.
Qed.

Lemma parseHeaders_NoDup (hl : list jsstring) :
  NoDup (creation_order (parseHeaders hl)).
Proof. apply fold_NoDup. constructor. Qed.

(** A property of all entries survives a write that satisfies it. *)
Lemma set_Forall (P : jsstring * value -> Prop) (o : object)
    (k : jsstring) (v : value) :
  P (k, v) -> Forall P o -> Forall P (set o k v).
Proof.
  intros Hkv Ho. unfold set.
  destruct (JSString.eqb k PROTO); [assumption|].
  destruct (has_own o k).
  - induction Ho as [|[k0 v0] r H0 Hr IH]; simpl; [constructor|].
    destruct (JSString.eqb k0 k) eqn:E; constructor; try assumption.
    apply eqb_eq in E. now subst.
  - apply Forall_app. split; [assumption|]. now constructor.
Qed.

Lemma fold_Forall (P : jsstring * value -> Prop) (hl : list jsstring)
    (o : object) :
  (forall l k v, In l hl -> parseHeaderLine l = Some (k, v) ->
                 P (k, Some v)) ->
  Forall P o -> Forall P (fold_left headerStep hl o).
Proof.
  revert o. induction hl as [|l r IH]; intros o Hl Ho; [exact Ho|].
  rewrite parseHeaders_cons.
  apply IH; [intros l' k v Hin E; apply (Hl l'); [now right|assumption]|].
  unfold headerStep. destruct (parseHeaderLine l) as [[k v]|] eqn:E;
    [|assumption].
  apply set_Forall; [|assumption]. apply (Hl l); [now left|assumption].
Qed.

Lemma fold_trimmed (hl : list jsstring) (o : object) :
  Forall trimmedEntry o -> Forall trimmedEntry (fold_left headerStep hl o).
Proof.
  apply fold_Forall. intros l k v _ E.
  apply parseHeaderLine_shape in E as [Hk [x ->]].
  split; [assumption|now exists x].
Qed.

Lemma get_trimmed (o : object) (k : jsstring) :
  Forall trimmedEntry o -> In k (creation_order o) ->
  ~ In COLON k /\ exists x, get o k = Some (trim x).
Proof.
  intros Ho. induction Ho as [|[k0 v0] r H0 Hr IH]; simpl; [tauto|].
  intros Hin. destruct (JSString.eqb k0 k) eqn:E.
  - apply eqb_eq in E. subst. exact H0.
  - destruct Hin as [Heq|Hin]; [|now apply IH].
    apply eqb_neq in E. congruence.
Qed.

End HeaderFacts.

(** ** The parser *)

Section ParserFacts.

Lemma filter_none {A : Type} (f : A -> bool) (l : list A) :
  (forall x, In x l -> f x = false) -> filter f l = [].
Proof.
  induction l as [|x r IH]; simpl; intros H; [reflexivity|].
  rewrite (H x) by now left. apply IH. intros; apply H; now right.
Qed.

Lemma mandatory_not_proto (f : jsstring) :
  In f MANDATORY_FIELDS -> JSString.eqb f PROTO = false.
Proof. intros [<-|[<-|[<-|[]]]]; reflexivity. Qed.

Lemma falsy_get_mandatory (hl : list jsstring) (f : jsstring) :
  In f MANDATORY_FIELDS ->
  falsy (get (parseHeaders hl) f) = absentOrEmpty hl f.
Proof.
  intros Hf. rewrite get_parseHeaders, mandatory_not_proto by assumption.
  reflexivity.
Qed.

Lemma missingIn_parseHeaders (hl : list jsstring) :
  missingIn (parseHeaders hl) = filter (absentOrEmpty hl) MANDATORY_FIELDS.
Proof.
  unfold missingIn. apply filter_ext_in. intros f Hf.
  now apply falsy_get_mandatory.
Qed.

(** What a successful parse returns. *)
Lemma parseContent_inr (content : jsstring) (p : ParsedEmail) :
  parseContent content = inr p ->
  headers p = parseHeaders (headerBlock content)
  /\ missingIn (headers p) = []
  /\ exists b rest,
       split NL content = headerBlock content ++ b :: rest
       /\ trim b = [] /\ ~ In NL b
       /\ body p = join [NL] rest.
Proof.
  intros H.
  destruct (findHeaderEnd_spec (split NL content) 0)
    as [[Hall Hres]|(b & rest & Hsplit & Hb & _)].
  - rewrite parseContent_no_blank in H by assumption. discriminate.
  - rewrite (parseContent_blank content _ b rest Hsplit) in H;
      [|apply beforeBlank_nonblank|assumption].
    fold (headerBlock content) in *.
    destruct (missingIn (parseHeaders (headerBlock content))) eqn:Em;
      [|discriminate].
    injection H as <-. simpl. repeat split; try assumption.
    exists b, rest. repeat split; try assumption.
    pose proof (split_pieces NL content) as Hp.
    rewrite Forall_forall in Hp. apply Hp. rewrite Hsplit.
    apply in_or_app. right. now left.
Qed.

Lemma headerBlock_one_line (content : jsstring) :
  Forall (fun l => ~ In NL l) (headerBlock content).
Proof.
  unfold headerBlock. pose proof (split_pieces NL content) as Hp.
  induction Hp as [|l r Hl Hr IH]; simpl; [constructor|].
  destruct (is_empty (trim l)); constructor; assumption.
Qed.

End ParserFacts.

(** ** Claims about [parseEmailTemplate] *)

(** C1 (as amended): for every template text that contains a line whose
    trimmed content is empty and whose header lines give non-empty trimmed
    values to From, To and Subject, [parseEmailTemplate] succeeds; for every
    key other than [__proto__], the header map has an entry for the key
    exactly when a header line writes it, and the entry holds the trimmed
    value of the last header line that writes it; the body is the text that
    follows the line break ending the first empty line, unchanged, and is
    empty when nothing follows that line. *)
Theorem parse_wellformed_template
    (fs : FileSystem) (templateFile content : jsstring) :
  fs templateFile = Some content ->
  (exists l, In l (split NL content) /\ trim l = []) ->
  (forall f, In f MANDATORY_FIELDS ->
     exists v, lastValue f (writtenPairs (headerBlock content)) = Some v
               /\ v <> []) ->
  exists p,
    parseEmailTemplate fs templateFile = inr p
    /\ (forall k,
          k <> PROTO ->
          get (headers p) k
            = lastValue k (writtenPairs (headerBlock content)))
    /\ exists b,
         trim b = [] /\ ~ In NL b
         /\ ((content = join [NL] (headerBlock content ++ [b])
              /\ body p = [])
             \/ content
                = join [NL] (headerBlock content ++ [b]) ++ NL :: body p).
Proof.
  intros Hfs Hblank Hmand. unfold parseEmailTemplate. rewrite Hfs.
  destruct (blank_decomposition content Hblank) as (b & rest & Hsplit & Hb & Hnl).
  fold (headerBlock content) in Hsplit.
  rewrite (parseContent_blank content _ b rest Hsplit);
    [|apply beforeBlank_nonblank|assumption].
  rewrite missingIn_parseHeaders.
  assert (Hnone : filter (absentOrEmpty (headerBlock content)) MANDATORY_FIELDS = []).
  { apply filter_none. intros f Hf.
    destruct (Hmand f Hf) as (v & Hv & Hne). unfold absentOrEmpty.
    rewrite Hv. apply is_empty_false in Hne. now rewrite Hne. }
  rewrite Hnone. eexists. split; [reflexivity|]. simpl. split.
  - intros k Hk. rewrite get_parseHeaders.
    apply eqb_neq in Hk. now rewrite Hk.
  - exists b. repeat split; try assumption.
    destruct (content_after_blank content _ b rest Hsplit) as [[-> Hc]|[_ Hc]].
    + left. split; [assumption|reflexivity].
    + right. assumption.
Qed.

Lemma parse_wellformed_template_witness :
  exists p,
    parseEmailTemplate (singleFile sampleTemplate) defaultFile = inr p
    /\ (forall k,
          k <> PROTO ->
          get (headers p) k
            = lastValue k (writtenPairs (headerBlock sampleTemplate)))
    /\ exists b,
         trim b = [] /\ ~ In NL b
         /\ ((sampleTemplate = join [NL] (headerBlock sampleTemplate ++ [b])
              /\ body p = [])
             \/ sampleTemplate
                = join [NL] (headerBlock sampleTemplate ++ [b])
                    ++ NL :: body p).
Proof.
  apply (parse_wellformed_template (singleFile sampleTemplate) defaultFile
           sampleTemplate).
  - reflexivity.
  - exists []. split; [vm_compute; tauto|reflexivity].
  - intros f [<-|[<-|[<-|[]]]]; eexists; (split; [vm_compute; reflexivity|discriminate]).
Defined.

(** C1 (counterexample): a template that writes From twice parses
    successfully, yet the pair of the first From line is not in the header
    map: the map does not hold exactly the written pairs. *)
Lemma parse_drops_overwritten_pair :
  exists p,
    parseEmailTemplate (singleFile duplicateTemplate) defaultFile = inr p
    /\ In (lit "From", lit "a")
          (writtenPairs (headerBlock duplicateTemplate))
    /\ get (headers p) (lit "From") = Some (lit "b")
    /\ get (headers p) (lit "From") <> Some (lit "a").
Proof.
  eexists. split; [vm_compute; reflexivity|].
  split; [vm_compute; tauto|].
  split; [vm_compute; reflexivity|vm_compute; discriminate].
Qed.

(** C3: for every template that contains an empty line but whose header
    lines leave one or more of From, To, Subject absent or empty,
    [parseEmailTemplate] fails, and the error it reports names every such
    field (in the order From, To, Subject), not only the first. *)
Theorem missing_fields_all_reported
    (fs : FileSystem) (templateFile content : jsstring) :
  fs templateFile = Some content ->
  (exists l, In l (split NL content) /\ trim l = []) ->
  (exists f, In f MANDATORY_FIELDS
             /\ absentOrEmpty (headerBlock content) f = true) ->
  exists missing,
    parseEmailTemplate fs templateFile = inl (FieldRequired missing)
    /\ missing = filter (absentOrEmpty (headerBlock content)) MANDATORY_FIELDS
    /\ (forall f, In f MANDATORY_FIELDS ->
          absentOrEmpty (headerBlock content) f = true -> In f missing)
    /\ console_error (FieldRequired missing)
       = lit "Error: " ++ join (lit ", ") missing
           ++ lit " field is required in email template!".
Proof.
  intros Hfs Hblank (f0 & Hf0 & Habs). unfold parseEmailTemplate. rewrite Hfs.
  destruct (blank_decomposition content Hblank) as (b & rest & Hsplit & Hb & _).
  fold (headerBlock content) in Hsplit.
  rewrite (parseContent_blank content _ b rest Hsplit);
    [|apply beforeBlank_nonblank|assumption].
  rewrite missingIn_parseHeaders.
  assert (Hin : In f0 (filter (absentOrEmpty (headerBlock content))
                         MANDATORY_FIELDS))
    by (apply filter_In; now split).
  destruct (filter (absentOrEmpty (headerBlock content)) MANDATORY_FIELDS)
    as [|m ms] eqn:Em; [destruct Hin|].
  exists (m :: ms). split; [reflexivity|]. split; [reflexivity|].
  split; [|reflexivity].
  intros f Hf Hf'. rewrite <- Em. apply filter_In. now split.
Qed.

Lemma missing_fields_all_reported_witness :
  exists missing,
    parseEmailTemplate (singleFile noSubjectTemplate) defaultFile
      = inl (FieldRequired missing)
    /\ missing = filter (absentOrEmpty (headerBlock noSubjectTemplate))
                   MANDATORY_FIELDS
    /\ (forall f, In f MANDATORY_FIELDS ->
          absentOrEmpty (headerBlock noSubjectTemplate) f = true ->
          In f missing)
    /\ console_error (FieldRequired missing)
       = lit "Error: " ++ join (lit ", ") missing
           ++ lit " field is required in email template!".
Proof.
  apply (missing_fields_all_reported (singleFile noSubjectTemplate)
           defaultFile noSubjectTemplate).
  - reflexivity.
  - exists []. split; [vm_compute; tauto|reflexivity].
  - exists (lit "Subject"). split; [vm_compute; tauto|reflexivity].
Defined.





(** C5: a header line [k ++ ":" ++ v] whose part [k] has no colon is parsed
    to the key [trim k] and the value [trim v] (the later colons of [v]
    kept), and the callback assigns that value to that key; a header line
    with no colon is ignored and leaves the header map as it was. *)
Theorem header_line_split_on_first_colon (h : object) (line : jsstring) :
  (forall k v,
     line = k ++ COLON :: v -> ~ In COLON k ->
     parseHeaderLine line = Some (trim k, trim v)
     /\ headerStep h line = set h (trim k) (Some (trim v)))
  /\ (~ In COLON line ->
      parseHeaderLine line = None /\ headerStep h line = h).
Proof.
  split.
  - intros k v -> Hk. unfold headerStep.
    rewrite parseHeaderLine_colon by assumption. now split.
  - intros H. unfold headerStep.
    rewrite parseHeaderLine_no_colon by assumption. now split.
Qed.

Lemma header_line_split_on_first_colon_witness :
  parseHeaderLine (lit "Subject : Re: 10:30 ")
    = Some (lit "Subject", lit "Re: 10:30")
  /\ headerStep empty (lit "no colon here") = empty.
Proof.
  split.
  - destruct (header_line_split_on_first_colon empty
                (lit "Subject : Re: 10:30 ")) as [H _].
    apply (H (lit "Subject ") (lit " Re: 10:30 "));
      [reflexivity|vm_compute; intuition discriminate].
  - destruct (header_line_split_on_first_colon empty (lit "no colon here"))
      as [_ H].
    apply H. vm_compute. intuition discriminate.
Defined.

(** C8: for every parsed email that [parseEmailTemplate] returns, the To
    header is present and non-empty, so the second check of To in
    [sendEmail] never takes its error branch. *)
Theorem to_recheck_never_fails
    (fs : FileSystem) (templateFile : jsstring) (p : ParsedEmail) :
  parseEmailTemplate fs templateFile = inr p ->
  (exists v, get (headers p) (lit "To") = Some v /\ v <> [])
  /\ falsy (get (headers p) (lit "To")) = false
  /\ forall gmail, sendEmail gmail fs templateFile <> ToRequired.
Proof.
  intros Hp.
  assert (Hto : falsy (get (headers p) (lit "To")) = false).
  { unfold parseEmailTemplate in Hp.
    destruct (fs templateFile) as [content|]; [|discriminate].
    apply parseContent_inr in Hp as (_ & Hmiss & _).
    destruct (falsy (get (headers p) (lit "To"))) eqn:E; [|reflexivity].
    assert (Hin : In (lit "To") (missingIn (headers p))).
    { apply filter_In. split; [right; now left|assumption]. }
    rewrite Hmiss in Hin. destruct Hin. }
  split; [|split; [assumption|]].
  - destruct (get (headers p) (lit "To")) as [v|]; [|discriminate].
    exists v. split; [reflexivity|]. now apply is_empty_false.
  - intros [send|]; unfold sendEmail; [|discriminate].
    rewrite Hp, Hto. destruct (send _); discriminate.
Qed.

Lemma to_recheck_never_fails_witness :
  (exists v,
     get (parseHeaders (headerBlock sampleTemplate)) (lit "To") = Some v
     /\ v <> [])
  /\ falsy (get (parseHeaders (headerBlock sampleTemplate)) (lit "To")) = false
  /\ forall gmail,
       sendEmail gmail (singleFile sampleTemplate) defaultFile <> ToRequired.
Proof.
  apply (to_recheck_never_fails (singleFile sampleTemplate) defaultFile
           (mkParsedEmail (parseHeaders (headerBlock sampleTemplate))
              (lit "Hello there"))).
  vm_compute. reflexivity.
Defined.

(** ** Duplicate keys *)

Section DuplicateFacts.

Lemma writtenPairs_app (a b : list jsstring) :
  writtenPairs (a ++ b) = writtenPairs a ++ writtenPairs b.
Proof.
  induction a as [|l r IH]; simpl; [reflexivity|].
  destruct (parseHeaderLine l); simpl; now rewrite IH.
Qed.

Lemma lastValue_app (k : jsstring) (ps qs : list (jsstring * jsstring)) :
  lastValue k (ps ++ qs) =
    match lastValue k qs with
    | Some v => Some v
    | None => lastValue k ps
    end.
Proof.
  induction ps as [|[k' v'] r IH]; simpl.
  - destruct (lastValue k qs); reflexivity.
  - rewrite IH. destruct (lastValue k qs); reflexivity.
Qed.

Lemma lastValue_none (k : jsstring) (hl : list jsstring) :
  (forall l v, In l hl -> parseHeaderLine l <> Some (k, v)) ->
  lastValue k (writtenPairs hl) = None.
Proof.
  induction hl as [|l r IH]; simpl; intros H; [reflexivity|].
  assert (Hr : lastValue k (writtenPairs r) = None)
    by (apply IH; intros; apply H; now right).
  destruct (parseHeaderLine l) as [[k' v']|] eqn:E; [|assumption].
  simpl. rewrite Hr. destruct (JSString.eqb k' k) eqn:Ek; [|reflexivity].
  apply eqb_eq in Ek. subst. exfalso. apply (H l v'); [now left|assumption].
Qed.

Lemma get_some_own (o : object) (k : jsstring) (v : jsstring) :
  get o k = Some v -> In k (creation_order o).
Proof.
  intros H. destruct (has_own o k) eqn:E.
  - rewrite has_own_mem in E. now apply mem_In.
  - apply get_absent in E. congruence.
Qed.

Lemma orEmpty_some (v : jsstring) : orEmpty (Some v) = v.
Proof. destruct v; reflexivity. Qed.

End DuplicateFacts.

(** Duplicate keys: when two header lines write the same trimmed key, other
    than [__proto__], and no later header line writes it, the header map
    has one entry for that key, whose value is the trimmed value of the
    later line, and the serialized message has one line for that key. *)
Theorem duplicate_key_last_wins
    (l1 l2 l3 : list jsstring) (a b k va vb : jsstring) :
  k <> PROTO ->
  parseHeaderLine a = Some (k, va) ->
  parseHeaderLine b = Some (k, vb) ->
  (forall l v, In l l3 -> parseHeaderLine l <> Some (k, v)) ->
  get (parseHeaders (l1 ++ a :: l2 ++ b :: l3)) k = Some vb
  /\ headerLine (parseHeaders (l1 ++ a :: l2 ++ b :: l3)) k
     = k ++ lit ": " ++ vb
  /\ exists ks1 ks2,
       keys (parseHeaders (l1 ++ a :: l2 ++ b :: l3)) = ks1 ++ k :: ks2
       /\ ~ In k ks1 /\ ~ In k ks2.
Proof.
  intros Hk Ha Hb Hl3.
  set (h := parseHeaders (l1 ++ a :: l2 ++ b :: l3)).
  assert (Hget : get h k = Some vb).
  { unfold h. rewrite get_parseHeaders.
    apply eqb_neq in Hk. rewrite Hk.
    replace (l1 ++ a :: l2 ++ b :: l3) with ((l1 ++ a :: l2) ++ [b] ++ l3)
      by (rewrite <- app_assoc; reflexivity).
    rewrite !writtenPairs_app, !lastValue_app, (lastValue_none k l3 Hl3).
    simpl. rewrite Hb. simpl. now rewrite eqb_refl. }
  split; [assumption|]. split.
  - unfold headerLine. rewrite Hget, orEmpty_some. reflexivity.
  - assert (Hin : In k (keys h)).
    { apply (Permutation_in k (Permutation_sym (keys_perm h))).
      eapply get_some_own, Hget. }
    apply in_split in Hin as (ks1 & ks2 & Hks).
    exists ks1, ks2. split; [assumption|].
    assert (Hnd : NoDup (keys h)).
    { apply (Permutation_NoDup (Permutation_sym (keys_perm h))).
      apply parseHeaders_NoDup. }
    rewrite Hks in Hnd. apply NoDup_remove_2 in Hnd.
    split; intros Hc; apply Hnd, in_or_app; tauto.
Qed.

Lemma duplicate_key_last_wins_witness :
  get (parseHeaders (headerBlock duplicateTemplate)) (lit "From")
    = Some (lit "b")
  /\ headerLine (parseHeaders (headerBlock duplicateTemplate)) (lit "From")
     = lit "From: b"
  /\ exists ks1 ks2,
       keys (parseHeaders (headerBlock duplicateTemplate))
         = ks1 ++ lit "From" :: ks2
       /\ ~ In (lit "From") ks1 /\ ~ In (lit "From") ks2.
Proof.
  apply (duplicate_key_last_wins [] []
           [lit "To: c"; lit "Subject: d"]
           (lit "From: a") (lit "From: b") (lit "From") (lit "a") (lit "b")).
  - vm_compute. discriminate.
  - reflexivity.
  - reflexivity.
  - intros l v [<-|[<-|[]]]; vm_compute; discriminate.
Defined.

(** C9 (the code at the failing input): two header lines write the key
    [__proto__]; the template parses, but the header map has no entry for
    that key, where the claim expects one entry holding the value of the
    second line, and the serialized message has no line for it. *)
Lemma duplicate_proto_key_has_no_entry :
  exists p,
    parseEmailTemplate (singleFile protoTemplate) defaultFile = inr p
    /\ parseHeaderLine (lit "__proto__: a") = Some (lit "__proto__", lit "a")
    /\ parseHeaderLine (lit "__proto__: b") = Some (lit "__proto__", lit "b")
    /\ headerBlock protoTemplate
       = [lit "From: x"; lit "To: y"; lit "Subject: z";
          lit "__proto__: a"; lit "__proto__: b"]
    /\ get (headers p) (lit "__proto__") = None
    /\ get (headers p) (lit "__proto__") <> Some (lit "b")
    /\ ~ In (lit "__proto__") (keys (headers p))
    /\ message (headers p) (body p)
       = text [lit "From: x"; lit "To: y"; lit "Subject: z"; []; lit "hello"].
Proof.
  eexists. split; [vm_compute; reflexivity|].
  repeat split; try (vm_compute; reflexivity); try (vm_compute; discriminate).
  vm_compute. intuition discriminate.
Qed.

(** ** Serialization *)

Section SerializationFacts.

Lemma firstOccurrences_not_seen (seen ks : list jsstring) (k : jsstring) :
  In k (firstOccurrences seen ks) -> mem k seen = false.
Proof.
  revert seen. induction ks as [|x r IH]; intros seen; [intros []|].
  rewrite firstOccurrences_cons. destruct (mem x seen) eqn:E.
  - apply IH.
  - intros [<-|Hin]; [assumption|].
    apply IH in Hin. simpl in Hin. now apply orb_false_iff in Hin.
Qed.

Lemma insertionOrder_not_proto (hl : list jsstring) (k : jsstring) :
  In k (insertionOrder hl) -> JSString.eqb k PROTO = false.
Proof.
  intros H. apply firstOccurrences_not_seen in H.
  change (mem k [PROTO]) with (JSString.eqb PROTO k || false) in H.
  apply orb_false_iff in H as [H _]. apply eqb_neq in H. apply eqb_neq.
  congruence.
Qed.

Lemma headerLine_written (hl : list jsstring) (k : jsstring) :
  In k (insertionOrder hl) ->
  headerLine (parseHeaders hl) k = writtenLine hl k.
Proof.
  intros H. unfold headerLine, writtenLine.
  rewrite get_parseHeaders, (insertionOrder_not_proto hl k H).
  destruct (lastValue k (writtenPairs hl)) as [v|]; [|reflexivity].
  now rewrite orEmpty_some.
Qed.

(** The message text: the header lines, an empty line, the body. *)
Lemma message_text (h : object) (b : jsstring) :
  keys h <> [] ->
  message h b
    = join [NL] (List.map (headerLine h) (keys h)) ++ [NL; NL] ++ b.
Proof.
  intros Hk. unfold message, messageParts.
  assert (Hl : List.map (headerLine h) (keys h) <> [])
    by (destruct (keys h); [congruence|discriminate]).
  rewrite join_app; [|now destruct (List.map (headerLine h) (keys h))|discriminate].
  rewrite join_app by (assumption || discriminate).
  simpl. now rewrite <- app_assoc.
Qed.

Lemma parsed_keys_nonempty (content : jsstring) (p : ParsedEmail) :
  parseContent content = inr p -> keys (headers p) <> [].
Proof.
  intros Hp. apply parseContent_inr in Hp as (_ & Hmiss & _).
  destruct (get (headers p) (lit "From")) as [v|] eqn:E.
  - apply get_some_own in E.
    apply (Permutation_in _ (Permutation_sym (keys_perm (headers p)))) in E.
    intros Hnil. rewrite Hnil in E. destruct E.
  - assert (Hin : In (lit "From") (missingIn (headers p))).
    { apply filter_In. split; [now left|]. now rewrite E. }
    rewrite Hmiss in Hin. destruct Hin.
Qed.



Lemma parseHeaderLine_chars (l k v : jsstring) (c : char16) :
  parseHeaderLine l = Some (k, v) -> In c k \/ In c v -> In c l.
Proof.
  unfold parseHeaderLine. destruct (includes COLON l); [|discriminate].
  pose proof (join_split COLON l) as Hj.
  destruct (split COLON l) as [|key parts]; [discriminate|].
  intros H. injection H as <- <-. intros Hc.
  destruct parts as [|q qs].
  - simpl in Hj. subst. destruct Hc as [Hc|Hc].
    + now apply trim_In in Hc.
    + apply trim_In in Hc. destruct Hc.
  - rewrite join_cons in Hj by discriminate. rewrite <- Hj.
    apply in_or_app. destruct Hc as [Hc|Hc].
    + left. now apply trim_In in Hc.
    + right. apply in_or_app. right. now apply trim_In in Hc.
Qed.

Lemma fold_oneLine (hl : list jsstring) (o : object) :
  Forall (fun l => ~ In NL l) hl -> Forall oneLineEntry o ->
  Forall oneLineEntry (fold_left headerStep hl o).
Proof.
  intros Hhl. apply fold_Forall. intros l k v Hl E.
  rewrite Forall_forall in Hhl. specialize (Hhl l Hl).
  split; simpl.
  - intros Hc. apply Hhl, (parseHeaderLine_chars l k v NL E). tauto.
  - intros v' Ev Hc. injection Ev as <-.
    apply Hhl, (parseHeaderLine_chars l k v NL E). tauto.
Qed.

Lemma headerLine_oneLine (o : object) (k : jsstring) :
  Forall oneLineEntry o -> In k (creation_order o) ->
  ~ In NL (headerLine o k).
Proof.
  intros Ho Hk. unfold headerLine.
  assert (H : ~ In NL k
              /\ forall v, get o k = Some v -> ~ In NL v).
  { induction Ho as [|[k0 v0] r H0 Hr IH]; simpl in *; [tauto|].
    destruct (JSString.eqb k0 k) eqn:E.
    - apply eqb_eq in E. subst. exact H0.
    - destruct Hk as [Heq|Hin]; [|now apply IH].
      apply eqb_neq in E. congruence. }
  destruct H as [Hk' Hv]. intros Hc.
  apply in_app_or in Hc as [Hc|Hc]; [contradiction|].
  apply in_app_or in Hc as [Hc|Hc].
  - destruct Hc as [Hc|[Hc|[]]]; discriminate.
  - destruct (get o k) as [v|]; [|destruct Hc].
    rewrite orEmpty_some in Hc. now apply (Hv v).
Qed.

Lemma keys_In (o : object) (k : jsstring) :
  In k (keys o) <-> In k (creation_order o).
Proof.
  split; apply Permutation_in; [|apply Permutation_sym]; apply keys_perm.
Qed.

End SerializationFacts.

(** ** Claims about [createMessage] *)

(** C6 (as amended): for every header map produced by parsing in which no
    key is an array index (the canonical decimal numeral of an integer
    below 2^32 - 1), [createMessage] serializes the headers as
    [Key: Value] lines in the order in which the header lines first wrote
    the keys, followed by one empty line, followed by the body verbatim. *)
Theorem headers_serialized_in_insertion_order
    (fs : FileSystem) (templateFile content : jsstring) (p : ParsedEmail) :
  fs templateFile = Some content ->
  parseEmailTemplate fs templateFile = inr p ->
  (forall k, In k (insertionOrder (headerBlock content)) ->
             array_index k = None) ->
  keys (headers p) = insertionOrder (headerBlock content)
  /\ message (headers p) (body p)
     = join [NL] (List.map (writtenLine (headerBlock content))
                    (insertionOrder (headerBlock content)))
         ++ [NL; NL] ++ body p
  /\ createMessage (headers p) (body p)
     = Base64.to_url
         (Base64.encode
            (Utf8.encode
               (join [NL] (List.map (writtenLine (headerBlock content))
                             (insertionOrder (headerBlock content)))
                  ++ [NL; NL] ++ body p))).
Proof.
  intros Hfs Hp Hidx. unfold parseEmailTemplate in Hp. rewrite Hfs in Hp.
  pose proof (parsed_keys_nonempty content p Hp) as Hne.
  destruct (parseContent_inr content p Hp) as (Hh & _ & _).
  assert (Hkeys : keys (headers p) = insertionOrder (headerBlock content)).
  { rewrite Hh, keys_no_index; rewrite creation_order_parseHeaders;
      [reflexivity|assumption]. }
  assert (Hmsg : message (headers p) (body p)
                 = join [NL] (List.map (writtenLine (headerBlock content))
                                (insertionOrder (headerBlock content)))
                     ++ [NL; NL] ++ body p).
  { rewrite message_text by assumption. rewrite Hkeys. do 2 f_equal.
    apply map_ext_in. intros k Hk. rewrite Hh.
    now apply headerLine_written. }
  split; [assumption|]. split; [assumption|].
  unfold createMessage. now rewrite Hmsg.
Qed.

Lemma headers_serialized_in_insertion_order_witness :
  keys (parseHeaders (headerBlock sampleTemplate))
    = [lit "From"; lit "To"; lit "Subject"]
  /\ message (parseHeaders (headerBlock sampleTemplate)) (lit "Hello there")
     = sampleTemplate.
Proof.
  destruct (headers_serialized_in_insertion_order
              (singleFile sampleTemplate) defaultFile sampleTemplate
              (mkParsedEmail (parseHeaders (headerBlock sampleTemplate))
                 (lit "Hello there")))
    as (Hk & Hm & _).
  - reflexivity.
  - vm_compute. reflexivity.
  - intros k Hk. vm_compute in Hk.
    destruct Hk as [<-|[<-|[<-|[]]]]; reflexivity.
  - split; [exact Hk|exact Hm].
Defined.

(** C6 (counterexample): the header lines write From, To, Subject and then
    the key 1; the serialized message begins with the line of the key 1,
    which was inserted last. *)
Lemma array_index_key_serialized_first :
  exists p,
    parseEmailTemplate (singleFile numericKeyTemplate) defaultFile = inr p
    /\ insertionOrder (headerBlock numericKeyTemplate)
       = [lit "From"; lit "To"; lit "Subject"; lit "1"]
    /\ creation_order (headers p)
       = [lit "From"; lit "To"; lit "Subject"; lit "1"]
    /\ keys (headers p) = [lit "1"; lit "From"; lit "To"; lit "Subject"]
    /\ message (headers p) (body p)
       = text [lit "1: x"; lit "From: a"; lit "To: b"; lit "Subject: c"; []; lit "hi"]
    /\ message (headers p) (body p) <> numericKeyTemplate.
Proof.
  eexists. split; [vm_compute; reflexivity|].
  repeat split; try (vm_compute; reflexivity).
  vm_compute. discriminate.
Qed.



(** ** The transport encoding *)

Section EncodingFacts.

Lemma list_ind3 {A : Type} (P : list A -> Prop) :
  P [] -> (forall a, P [a]) -> (forall a b, P [a; b]) ->
  (forall a b c r, P r -> P (a :: b :: c :: r)) ->
  forall l, P l.
Proof.
  intros H0 H1 H2 H3 l.
  assert (H : P l /\ (forall a, P (a :: l)) /\ (forall a b, P (a :: b :: l))).
  { induction l as [|x r (Hr & Hr1 & Hr2)].
    - repeat split; assumption.
    - split; [apply Hr1|]. split; [intros a; apply (Hr2 a x)|].
      intros a b. now apply H3. }
  apply H.
Qed.

(** *** UTF-8 produces bytes *)

Lemma encode_point_bytes (cp : N) :
  cp < 1114112 -> bytes (Utf8.encode_point cp).
Proof.
  intros H. unfold Utf8.encode_point.
  destruct (cp <? 128) eqn:E1; [apply N.ltb_lt in E1|apply N.ltb_ge in E1].
  { repeat constructor. lia. }
  destruct (cp <? 2048) eqn:E2; [apply N.ltb_lt in E2|apply N.ltb_ge in E2].
  { repeat constructor; div_lia. }
  destruct (cp <? 65536) eqn:E3; [apply N.ltb_lt in E3|apply N.ltb_ge in E3];
    repeat constructor; div_lia.
Qed.

Lemma replacement_bytes : bytes Utf8.replacement.
Proof. repeat constructor. Qed.

Lemma utf8_bytes (s : jsstring) : wf s -> bytes (Utf8.encode s).
Proof.
  assert (H : forall n s, (List.length s <= n)%nat -> wf s ->
                          bytes (Utf8.encode s)).
  { clear s. induction n as [|n IH]; intros [|c r] Hlen Hwf;
      try (constructor; fail); simpl in Hlen; [lia|].
    inversion Hwf as [|? ? Hc Hr]; subst. cbn [Utf8.encode].
    destruct (Utf8.is_high c) eqn:Eh.
    - destruct r as [|d r']; [apply replacement_bytes|].
      inversion Hr as [|? ? Hd Hr']; subst.
      destruct (Utf8.is_low d) eqn:El.
      + apply Forall_app. split.
        * apply encode_point_bytes.
          unfold Utf8.is_high, Utf8.is_low in *.
          apply andb_true_iff in Eh as [Eh1 Eh2].
          apply andb_true_iff in El as [El1 El2].
          apply N.leb_le in Eh1, Eh2, El1, El2. lia.
        * apply IH; [simpl in Hlen; lia|assumption].
      + apply Forall_app. split; [apply replacement_bytes|].
        apply IH; [lia|assumption].
    - destruct (Utf8.is_low c).
      + apply Forall_app. split; [apply replacement_bytes|].
        apply IH; [lia|assumption].
      + apply Forall_app. split; [apply encode_point_bytes; lia|].
        apply IH; [lia|assumption]. }
  apply (H (List.length s)). lia.
Qed.

(** *** The alphabet *)

Lemma sextet_In (n : N) : n < 64 -> In n sextets.
Proof.
  intros H. unfold sextets. apply in_map_iff. exists (N.to_nat n).
  split; [apply N2Nat.id|]. apply in_seq. lia.
Qed.

Lemma sextets_checked : forallb sextetChecked sextets = true.
Proof. vm_compute. reflexivity. Qed.

Lemma sextet_checked (n : N) : n < 64 -> sextetChecked n = true.
Proof.
  intros H. pose proof sextets_checked as Hall.
  rewrite forallb_forall in Hall. now apply Hall, sextet_In.
Qed.

Lemma dec6_enc6 (n : N) : n < 64 -> Base64.dec6 (Base64.enc6 n) = Some n.
Proof.
  intros H. apply sextet_checked in H. unfold sextetChecked in H.
  rewrite !andb_true_iff in H. destruct H as [[[H _] _] _].
  destruct (Base64.dec6 (Base64.enc6 n)) as [m|]; [|discriminate].
  apply N.eqb_eq in H. now subst.
Qed.

Lemma enc6_not_pad (n : N) :
  n < 64 -> (Base64.enc6 n =? Base64.PAD) = false.
Proof.
  intros H. apply sextet_checked in H. unfold sextetChecked in H.
  rewrite !andb_true_iff in H. destruct H as [[[_ H] _] _].
  now apply negb_true_iff in H.
Qed.

Lemma toUrlChars_cons (c : char16) (s : jsstring) :
  toUrlChars (c :: s) = toUrlChars [c] ++ toUrlChars s.
Proof. reflexivity. Qed.

Lemma toUrlChars_app (a b : jsstring) :
  toUrlChars (a ++ b) = toUrlChars a ++ toUrlChars b.
Proof.
  unfold toUrlChars, Base64.replace_all. now rewrite !map_app.
Qed.

Lemma toUrlChars_padding (n : nat) :
  toUrlChars (repeat Base64.PAD n) = repeat Base64.PAD n.
Proof.
  unfold toUrlChars, Base64.replace_all. now rewrite !map_repeat.
Qed.

Lemma fromUrl_toUrl (s : jsstring) :
  Forall sextetChar s -> fromUrlChars (toUrlChars s) = s.
Proof.
  induction 1 as [|c r (n & Hn & ->) _ IH]; [reflexivity|].
  rewrite toUrlChars_cons.
  replace (fromUrlChars (toUrlChars [Base64.enc6 n] ++ toUrlChars r))
    with (fromUrlChars (toUrlChars [Base64.enc6 n])
            ++ fromUrlChars (toUrlChars r))
    by (unfold fromUrlChars, Base64.replace_all; now rewrite !map_app).
  rewrite IH. apply sextet_checked in Hn. unfold sextetChecked in Hn.
  rewrite !andb_true_iff in Hn. destruct Hn as [[_ Hn] _].
  apply eqb_eq in Hn. now rewrite Hn.
Qed.

Lemma toUrl_no_pad (s : jsstring) :
  Forall sextetChar s -> ~ In Base64.PAD (toUrlChars s).
Proof.
  induction 1 as [|c r (n & Hn & ->) _ IH]; [intros []|].
  rewrite toUrlChars_cons. intros Hin.
  apply in_app_or in Hin as [Hin|Hin]; [|contradiction].
  apply sextet_checked in Hn. unfold sextetChecked in Hn.
  rewrite !andb_true_iff in Hn. destruct Hn as [_ Hn].
  apply negb_true_iff, includes_not_In in Hn. contradiction.
Qed.

Lemma drop_pad_repeat (n : nat) (s : jsstring) :
  Base64.drop_pad (repeat Base64.PAD n ++ s) = Base64.drop_pad s.
Proof. induction n as [|n IH]; [reflexivity|exact IH]. Qed.

Lemma strip_padding_app (s : jsstring) (n : nat) :
  ~ In Base64.PAD s ->
  Base64.strip_padding (s ++ repeat Base64.PAD n) = s.
Proof.
  intros H. unfold Base64.strip_padding.
  rewrite rev_app_distr, rev_repeat, drop_pad_repeat.
  assert (Hr : Base64.drop_pad (rev s) = rev s).
  { destruct (rev s) as [|c r] eqn:E; [reflexivity|]. simpl.
    destruct (c =? Base64.PAD) eqn:Ec; [|reflexivity].
    apply N.eqb_eq in Ec. exfalso. apply H, in_rev. rewrite E, Ec. now left. }
  rewrite Hr. apply rev_involutive.
Qed.

Lemma unpadded_sextets (bs : list N) :
  bytes bs -> Forall sextetChar (unpadded bs).
Proof.
  induction bs as [|a|a b|a b c r IH] using list_ind3; intros H.
  - constructor.
  - inversion H; subst. repeat constructor; eexists; (split; [|reflexivity]);
      div_lia.
  - inversion H as [|? ? Ha Hb]; subst. inversion Hb; subst.
    repeat constructor; eexists; (split; [|reflexivity]); div_lia.
  - inversion H as [|? ? Ha Hb]; subst. inversion Hb as [|? ? Hb' Hc]; subst.
    inversion Hc as [|? ? Hc' Hr]; subst.
    change (unpadded (a :: b :: c :: r))
      with ([Base64.enc6 (a / 4); Base64.enc6 ((a mod 4) * 16 + b / 16);
             Base64.enc6 ((b mod 16) * 4 + c / 64); Base64.enc6 (c mod 64)]
              ++ unpadded r).
    apply Forall_app. split; [|now apply IH].
    repeat constructor; eexists; (split; [|reflexivity]); div_lia.
Qed.

Lemma encode_unpadded (bs : list N) :
  Base64.encode bs = unpadded bs ++ repeat Base64.PAD (paddingLength bs).
Proof.
  induction bs as [|a|a b|a b c r IH] using list_ind3; try reflexivity.
  change (Base64.encode (a :: b :: c :: r))
    with ([Base64.enc6 (a / 4); Base64.enc6 ((a mod 4) * 16 + b / 16);
           Base64.enc6 ((b mod 16) * 4 + c / 64); Base64.enc6 (c mod 64)]
            ++ Base64.encode r).
  rewrite IH. reflexivity.
Qed.

Lemma to_url_encode (bs : list N) :
  bytes bs -> Base64.to_url (Base64.encode bs) = toUrlChars (unpadded bs).
Proof.
  intros H. change (Base64.to_url (Base64.encode bs))
    with (Base64.strip_padding (toUrlChars (Base64.encode bs))).
  rewrite encode_unpadded, toUrlChars_app, toUrlChars_padding.
  apply strip_padding_app, toUrl_no_pad. now apply unpadded_sextets.
Qed.

Lemma restore_padding_unpadded (bs : list N) :
  Base64.restore_padding (unpadded bs) = Base64.encode bs.
Proof.
  rewrite encode_unpadded. unfold Base64.restore_padding. do 2 f_equal.
  induction bs as [|a|a b|a b c r IH] using list_ind3; try reflexivity.
  change (unpadded (a :: b :: c :: r))
    with ([Base64.enc6 (a / 4); Base64.enc6 ((a mod 4) * 16 + b / 16);
           Base64.enc6 ((b mod 16) * 4 + c / 64); Base64.enc6 (c mod 64)]
            ++ unpadded r).
  rewrite length_app.
  change (paddingLength (a :: b :: c :: r)) with (paddingLength r).
  rewrite <- IH. simpl List.length.
  replace (4 + List.length (unpadded r))%nat
    with (List.length (unpadded r) + 1 * 4)%nat by lia.
  now rewrite Nat.Div0.mod_add.
Qed.

Lemma decode_quad (c1 c2 c3 c4 : char16) (r : jsstring) :
  Base64.decode (c1 :: c2 :: c3 :: c4 :: r) =
    match Base64.dec6 c1, Base64.dec6 c2 with
    | Some s1, Some s2 =>
        if c4 =? Base64.PAD then
          match r with
          | [] =>
              if c3 =? Base64.PAD then Some [s1 * 4 + s2 / 16]
              else match Base64.dec6 c3 with
                   | Some s3 =>
                       Some [s1 * 4 + s2 / 16; (s2 mod 16) * 16 + s3 / 4]
                   | None => None
                   end
          | _ :: _ => None
          end
        else
          match Base64.dec6 c3, Base64.dec6 c4, Base64.decode r with
          | Some s3, Some s4, Some bs =>
              Some (s1 * 4 + s2 / 16 :: (s2 mod 16) * 16 + s3 / 4
                      :: (s3 mod 4) * 64 + s4 :: bs)
          | _, _, _ => None
          end
    | _, _ => None
    end.
Proof. reflexivity. Qed.

(** Standard decoding undoes standard encoding. *)
Lemma decode_encode (bs : list N) :
  bytes bs -> Base64.decode (Base64.encode bs) = Some bs.
Proof.
  induction bs as [|a|a b|a b c r IH] using list_ind3; intros H.
  - reflexivity.
  - inversion H as [|? ? Ha _]; subst.
    change (Base64.encode [a])
      with [Base64.enc6 (a / 4); Base64.enc6 ((a mod 4) * 16);
            Base64.PAD; Base64.PAD].
    rewrite decode_quad, !dec6_enc6, !N.eqb_refl by div_lia.
    do 2 f_equal. div_lia.
  - inversion H as [|? ? Ha Hb]; subst. inversion Hb as [|? ? Hb' _]; subst.
    change (Base64.encode [a; b])
      with [Base64.enc6 (a / 4); Base64.enc6 ((a mod 4) * 16 + b / 16);
            Base64.enc6 ((b mod 16) * 4); Base64.PAD].
    rewrite decode_quad, !dec6_enc6, N.eqb_refl, enc6_not_pad by div_lia.
    f_equal. f_equal; [div_lia|]. f_equal. div_lia.
  - inversion H as [|? ? Ha Hb]; subst. inversion Hb as [|? ? Hb' Hc]; subst.
    inversion Hc as [|? ? Hc' Hr]; subst.
    change (Base64.encode (a :: b :: c :: r))
      with (Base64.enc6 (a / 4) :: Base64.enc6 ((a mod 4) * 16 + b / 16)
              :: Base64.enc6 ((b mod 16) * 4 + c / 64)
              :: Base64.enc6 (c mod 64) :: Base64.encode r).
    rewrite decode_quad, !dec6_enc6, enc6_not_pad, (IH Hr) by div_lia.
    f_equal. f_equal; [div_lia|]. f_equal; [div_lia|]. f_equal. div_lia.
Qed.

(** Decoding the URL-safe text gives back the bytes. *)
Lemma decode_url_to_url (bs : list N) :
  bytes bs ->
  Base64.decode_url (Base64.to_url (Base64.encode bs)) = Some bs.
Proof.
  intros H. rewrite to_url_encode by assumption.
  change (Base64.decode_url (toUrlChars (unpadded bs)))
    with (Base64.decode
            (Base64.restore_padding (fromUrlChars (toUrlChars (unpadded bs))))).
  rewrite fromUrl_toUrl by now apply unpadded_sextets.
  rewrite restore_padding_unpadded. now apply decode_encode.
Qed.

End EncodingFacts.

Section Utf8Facts.

Lemma utf8_decode_cons (b0 : N) (r : list N) :
  Utf8.decode (b0 :: r) =
    if b0 <? 128 then option_map (cons b0) (Utf8.decode r)
    else if (194 <=? b0) && (b0 <? 224) then
      match r with
      | b1 :: r1 =>
          if Utf8.is_cont b1
          then option_map (cons ((b0 - 192) * 64 + (b1 - 128)))
                 (Utf8.decode r1)
          else None
      | _ => None
      end
    else if (224 <=? b0) && (b0 <? 240) then
      match r with
      | b1 :: b2 :: r2 =>
          let cp := (b0 - 224) * 4096 + (b1 - 128) * 64 + (b2 - 128) in
          if Utf8.is_cont b1 && Utf8.is_cont b2 && (2048 <=? cp)
             && negb ((55296 <=? cp) && (cp <=? 57343))
          then option_map (cons cp) (Utf8.decode r2)
          else None
      | _ => None
      end
    else if (240 <=? b0) && (b0 <? 245) then
      match r with
      | b1 :: b2 :: b3 :: r3 =>
          let cp := (b0 - 240) * 262144 + (b1 - 128) * 4096
                    + (b2 - 128) * 64 + (b3 - 128) in
          if Utf8.is_cont b1 && Utf8.is_cont b2 && Utf8.is_cont b3
             && (65536 <=? cp) && (cp <? 1114112)
          then option_map
                 (fun t => 55296 + (cp - 65536) / 1024
                           :: 56320 + (cp - 65536) mod 1024 :: t)
                 (Utf8.decode r3)
          else None
      | _ => None
      end
    else None.
Proof. reflexivity. Qed.

(** A code point outside the surrogate range, below 2^16. *)
Lemma decode_point_bmp (c : N) (t : list N) :
  c < 65536 -> Utf8.is_high c = false -> Utf8.is_low c = false ->
  Utf8.decode (Utf8.encode_point c ++ t)
    = option_map (cons c) (Utf8.decode t).
Proof.
  intros Hc Hh Hl. unfold Utf8.encode_point.
  assert (Hns : c < 55296 \/ 57343 < c).
  { unfold Utf8.is_high, Utf8.is_low in *.
    apply andb_false_iff in Hh, Hl.
    rewrite !N.leb_gt in Hh, Hl. lia. }
  destruct (c <? 128) eqn:E1; [apply N.ltb_lt in E1|apply N.ltb_ge in E1].
  { cbn [app]. rewrite utf8_decode_cons.
    replace (c <? 128) with true by (symmetry; bool_true; lia).
    reflexivity. }
  destruct (c <? 2048) eqn:E2; [apply N.ltb_lt in E2|apply N.ltb_ge in E2].
  { cbn [app]. rewrite utf8_decode_cons.
    replace (192 + c / 64 <? 128) with false by (symmetry; bool_true; div_lia).
    replace ((194 <=? 192 + c / 64) && (192 + c / 64 <? 224)) with true
      by (symmetry; bool_true; div_lia).
    replace (Utf8.is_cont (128 + c mod 64)) with true
      by (symmetry; unfold Utf8.is_cont; bool_true; div_lia).
    replace ((192 + c / 64 - 192) * 64 + (128 + c mod 64 - 128)) with c
      by div_lia.
    reflexivity. }
  rewrite (proj2 (N.ltb_lt c 65536) Hc).
  cbn [app]. rewrite utf8_decode_cons.
  replace (224 + c / 4096 <? 128) with false by (symmetry; bool_true; div_lia).
  replace ((194 <=? 224 + c / 4096) && (224 + c / 4096 <? 224)) with false
    by (symmetry; bool_true; right; bool_true; div_lia).
  replace ((224 <=? 224 + c / 4096) && (224 + c / 4096 <? 240)) with true
    by (symmetry; bool_true; div_lia).
  cbv zeta.
  replace ((224 + c / 4096 - 224) * 4096 + (128 + (c / 64) mod 64 - 128) * 64
           + (128 + c mod 64 - 128)) with c by div_lia.
  replace (Utf8.is_cont (128 + (c / 64) mod 64)) with true
    by (symmetry; unfold Utf8.is_cont; bool_true; div_lia).
  replace (Utf8.is_cont (128 + c mod 64)) with true
    by (symmetry; unfold Utf8.is_cont; bool_true; div_lia).
  replace (2048 <=? c) with true by (symmetry; bool_true; lia).
  replace ((55296 <=? c) && (c <=? 57343)) with false
    by (symmetry; bool_true; destruct Hns; [left|right]; bool_true; lia).
  reflexivity.
Qed.

(** A surrogate pair. *)
Lemma decode_point_pair (c d : N) (t : list N) :
  Utf8.is_high c = true -> Utf8.is_low d = true ->
  Utf8.decode
    (Utf8.encode_point (65536 + (c - 55296) * 1024 + (d - 56320)) ++ t)
    = option_map (fun u => c :: d :: u) (Utf8.decode t).
Proof.
  intros Hh Hl. unfold Utf8.is_high, Utf8.is_low in *.
  apply andb_true_iff in Hh as [Hc1 Hc2]. apply andb_true_iff in Hl as [Hd1 Hd2].
  apply N.leb_le in Hc1, Hc2, Hd1, Hd2.
  remember (65536 + (c - 55296) * 1024 + (d - 56320)) as cp eqn:Ecp.
  assert (Hlo : 65536 <= cp) by lia.
  assert (Hhi : cp < 1114112) by lia.
  unfold Utf8.encode_point.
  replace (cp <? 128) with false by (symmetry; bool_true; lia).
  replace (cp <? 2048) with false by (symmetry; bool_true; lia).
  replace (cp <? 65536) with false by (symmetry; bool_true; lia).
  cbn [app]. rewrite utf8_decode_cons.
  replace (240 + cp / 262144 <? 128) with false
    by (symmetry; bool_true; div_lia).
  replace ((194 <=? 240 + cp / 262144) && (240 + cp / 262144 <? 224))
    with false by (symmetry; bool_true; right; bool_true; div_lia).
  replace ((224 <=? 240 + cp / 262144) && (240 + cp / 262144 <? 240))
    with false by (symmetry; bool_true; right; bool_true; div_lia).
  replace ((240 <=? 240 + cp / 262144) && (240 + cp / 262144 <? 245))
    with true by (symmetry; bool_true; div_lia).
  cbv zeta.
  replace ((240 + cp / 262144 - 240) * 262144
           + (128 + (cp / 4096) mod 64 - 128) * 4096
           + (128 + (cp / 64) mod 64 - 128) * 64 + (128 + cp mod 64 - 128))
    with cp by div_lia.
  replace (Utf8.is_cont (128 + (cp / 4096) mod 64)) with true
    by (symmetry; unfold Utf8.is_cont; bool_true; div_lia).
  replace (Utf8.is_cont (128 + (cp / 64) mod 64)) with true
    by (symmetry; unfold Utf8.is_cont; bool_true; div_lia).
  replace (Utf8.is_cont (128 + cp mod 64)) with true
    by (symmetry; unfold Utf8.is_cont; bool_true; div_lia).
  replace (65536 <=? cp) with true by (symmetry; bool_true; lia).
  replace (cp <? 1114112) with true by (symmetry; bool_true; lia).
  cbn [andb].
  replace (55296 + (cp - 65536) / 1024) with c by (subst cp; div_lia).
  replace (56320 + (cp - 65536) mod 1024) with d by (subst cp; div_lia).
  reflexivity.
Qed.

(** Reading the UTF-8 bytes of a string without unpaired surrogates gives
    the string back. *)
Lemma utf8_decode_encode (s : jsstring) :
  wf s -> Utf8.paired s = true -> Utf8.decode (Utf8.encode s) = Some s.
Proof.
  assert (H : forall n s, (List.length s <= n)%nat -> wf s ->
                          Utf8.paired s = true ->
                          Utf8.decode (Utf8.encode s) = Some s).
  { clear s. induction n as [|n IH]; intros [|c r] Hlen Hwf Hp;
      try reflexivity; simpl in Hlen; [lia|].
    inversion Hwf as [|? ? Hc Hr]; subst.
    cbn [Utf8.encode]. cbn [Utf8.paired] in Hp.
    destruct (Utf8.is_high c) eqn:Eh.
    - destruct r as [|d r']; [discriminate|].
      apply andb_true_iff in Hp as [Hd Hp]. rewrite Hd.
      inversion Hr as [|? ? _ Hr']; subst.
      rewrite decode_point_pair by assumption.
      rewrite IH; [reflexivity|simpl in Hlen; lia|assumption|assumption].
    - apply andb_true_iff in Hp as [Hl Hp]. apply negb_true_iff in Hl.
      rewrite Hl, decode_point_bmp by assumption.
      rewrite IH; [reflexivity|lia|assumption|assumption]. }
  apply (H (List.length s)). lia.
Qed.

End Utf8Facts.

Section MessageFacts.

Lemma join_wf (sep : jsstring) (parts : list jsstring) :
  wf sep -> Forall wf parts -> wf (join sep parts).
Proof.
  intros Hsep Hparts. induction Hparts as [|p ps Hp Hps IH]; [constructor|].
  destruct ps as [|q qs]; [exact Hp|].
  rewrite join_cons by discriminate.
  apply wf_app. split; [assumption|]. apply wf_app. now split.
Qed.

Lemma get_wf (o : object) (k : jsstring) :
  wf_object o -> wf (orEmpty (get o k)).
Proof.
  intros Ho. induction Ho as [|[k0 v0] r [_ H0] _ IH]; simpl; [constructor|].
  destruct (JSString.eqb k0 k); [|exact IH].
  destruct v0 as [v|]; [|constructor]. now rewrite orEmpty_some.
Qed.

Lemma key_wf (o : object) (k : jsstring) :
  wf_object o -> In k (keys o) -> wf k.
Proof.
  intros Ho Hk. apply keys_In in Hk. unfold creation_order in Hk.
  apply in_map_iff in Hk as ([k0 v0] & <- & Hin).
  unfold wf_object in Ho. rewrite Forall_forall in Ho.
  now apply (Ho _ Hin).
Qed.

Lemma message_wf (h : object) (b : jsstring) :
  wf_object h -> wf b -> wf (message h b).
Proof.
  intros Hh Hb. unfold message, messageParts.
  apply join_wf; [repeat constructor|].
  apply Forall_app. split; [apply Forall_app; split|].
  - apply Forall_forall. intros l Hl.
    apply in_map_iff in Hl as (k & <- & Hk). unfold headerLine.
    apply wf_app. split; [now apply (key_wf h)|].
    apply wf_app. split; [repeat constructor|now apply get_wf].
  - repeat constructor.
  - now repeat constructor.
Qed.

Lemma split_wf (sep : char16) (s : jsstring) :
  wf s -> Forall wf (split sep s).
Proof.
  induction 1 as [|c r Hc Hr IH]; simpl; [repeat constructor|].
  destruct (c =? sep); [constructor; [constructor|assumption]|].
  destruct (split sep r) as [|p ps]; [repeat constructor; assumption|].
  inversion IH; subst. constructor; [now constructor|assumption].
Qed.

Lemma beforeBlank_Forall (P : jsstring -> Prop) (lines : list jsstring) :
  Forall P lines -> Forall P (beforeBlank lines).
Proof.
  induction 1 as [|l r Hl Hr IH]; simpl; [constructor|].
  destruct (is_empty (trim l)); constructor; assumption.
Qed.

(** The strings of a parsed email are well formed when the text is. *)
Lemma parsed_wf (content : jsstring) (p : ParsedEmail) :
  wf content -> parseContent content = inr p ->
  wf_object (headers p) /\ wf (body p).
Proof.
  intros Hwf Hp.
  destruct (parseContent_inr content p Hp)
    as (Hh & _ & b & rest & Hsplit & _ & _ & Hbody).
  pose proof (split_wf NL content Hwf) as Hlines. split.
  - rewrite Hh. apply fold_Forall; [|constructor].
    intros l k v Hl E.
    assert (Hwl : wf l).
    { pose proof (beforeBlank_Forall wf _ Hlines) as Hb.
      rewrite Forall_forall in Hb. now apply Hb. }
    unfold wf in *. rewrite Forall_forall in Hwl.
    split; simpl; apply Forall_forall; intros c Hc; apply Hwl;
      apply (parseHeaderLine_chars l k v c E); tauto.
  - rewrite Hbody. apply join_wf; [repeat constructor|].
    rewrite Hsplit in Hlines. apply Forall_app in Hlines as [_ Hlines].
    now inversion Hlines.
Qed.

(** The payload handed to the send operation decodes to the message built
    from the parsed template. *)
Lemma sent_payload_decodes (fs : FileSystem) (templateFile content : jsstring)
    (p : ParsedEmail) :
  fs templateFile = Some content -> wf content ->
  parseEmailTemplate fs templateFile = inr p ->
  Base64.decode_url (createMessage (headers p) (body p))
    = Some (Utf8.encode (message (headers p) (body p))).
Proof.
  intros Hfs Hwf Hp. unfold parseEmailTemplate in Hp. rewrite Hfs in Hp.
  destruct (parsed_wf content p Hwf Hp) as [Hh Hb].
  unfold createMessage. apply decode_url_to_url, utf8_bytes.
  now apply message_wf.
Qed.

End MessageFacts.

(** C2: for every header map and body made of well-formed strings,
    decoding the output of [createMessage] as base64url ([-] back to [+],
    [_] back to [/], padding restored) gives exactly the bytes of the
    serialized text (the header lines, one empty line and the body), and,
    when that text has no unpaired surrogate, reading those bytes as UTF-8
    gives the text itself. *)
Theorem createMessage_decodes_to_message (h : object) (b : jsstring) :
  wf_object h -> wf b ->
  Base64.decode_url (createMessage h b)
    = Some (Utf8.encode
              (join [NL] (List.map (headerLine h) (keys h) ++ [[]; b])))
  /\ (Utf8.paired (join [NL] (List.map (headerLine h) (keys h) ++ [[]; b]))
        = true ->
      Utf8.decode
        (Utf8.encode
           (join [NL] (List.map (headerLine h) (keys h) ++ [[]; b])))
        = Some (join [NL] (List.map (headerLine h) (keys h) ++ [[]; b]))).
Proof.
  intros Hh Hb.
  replace (List.map (headerLine h) (keys h) ++ [[]; b])
    with (messageParts h b)
    by (unfold messageParts; now rewrite <- app_assoc).
  fold (message h b). pose proof (message_wf h b Hh Hb) as Hm. split.
  - unfold createMessage. now apply decode_url_to_url, utf8_bytes.
  - now apply utf8_decode_encode.
Qed.

Lemma createMessage_decodes_to_message_witness :
  Base64.decode_url
    (createMessage (parseHeaders (headerBlock sampleTemplate))
       (lit "Hello there"))
  = Some (Utf8.encode sampleTemplate)
  /\ Utf8.decode (Utf8.encode sampleTemplate) = Some sampleTemplate.
Proof.
  destruct (createMessage_decodes_to_message
              (parseHeaders (headerBlock sampleTemplate)) (lit "Hello there"))
    as [Hbytes Htext].
  - vm_compute. repeat constructor.
  - vm_compute. repeat constructor.
  - split; [exact Hbytes|]. apply Htext. reflexivity.
Defined.

(** * Further properties of the parser and the encoder *)

Section TrimFacts.

Lemma trimStart_fixed (t : jsstring) :
  match t with c :: _ => is_ws c = false | [] => True end ->
  trimStart t = t.
Proof. destruct t as [|c r]; simpl; [reflexivity|]. now intros ->. Qed.

Lemma trimStart_all_ws (w : jsstring) : allWhitespace w -> trimStart w = [].
Proof.
  induction 1 as [|c r Hc _ IH]; simpl; [reflexivity|]. now rewrite Hc.
Qed.

Lemma trimStart_skip (w s : jsstring) :
  allWhitespace w -> trimStart (w ++ s) = trimStart s.
Proof.
  induction 1 as [|c r Hc _ IH]; simpl; [reflexivity|]. now rewrite Hc.
Qed.

Lemma trimStart_app (a w : jsstring) :
  trimStart a <> [] -> trimStart (a ++ w) = trimStart a ++ w.
Proof.
  induction a as [|c a IH]; simpl; [congruence|].
  destruct (is_ws c); [exact IH|reflexivity].
Qed.

Lemma trimStart_nil_all_ws (a : jsstring) :
  trimStart a = [] -> allWhitespace a.
Proof.
  induction a as [|c a IH]; simpl; [constructor|].
  destruct (is_ws c) eqn:E; [|discriminate].
  intros H. constructor; [assumption|now apply IH].
Qed.

Lemma allWhitespace_rev (w : jsstring) :
  allWhitespace w -> allWhitespace (rev w).
Proof. apply Forall_rev. Qed.

Lemma allWhitespace_app (a b : jsstring) :
  allWhitespace a -> allWhitespace b -> allWhitespace (a ++ b).
Proof. intros Ha Hb. apply Forall_app. now split. Qed.

(** White space at the end of a string does not survive trimming. *)
Lemma trim_app_ws (a w : jsstring) :
  allWhitespace w -> trim (a ++ w) = trim a.
Proof.
  intros Hw. unfold trim, trimEnd.
  destruct (trimStart a) as [|c r] eqn:E.
  - apply trimStart_nil_all_ws in E.
    rewrite (trimStart_all_ws (a ++ w)) by now apply allWhitespace_app.
    reflexivity.
  - rewrite trimStart_app by congruence. rewrite E.
    rewrite rev_app_distr, trimStart_skip by now apply allWhitespace_rev.
    reflexivity.
Qed.

(** White space at the start of a string does not survive trimming. *)
Lemma trim_skip_ws (w s : jsstring) :
  allWhitespace w -> trim (w ++ s) = trim s.
Proof. intros Hw. unfold trim. now rewrite trimStart_skip. Qed.

Lemma trim_all_ws (w : jsstring) : allWhitespace w -> trim w = [].
Proof.
  intros Hw. unfold trim. now rewrite trimStart_all_ws.
Qed.

Lemma trim_idem (s : jsstring) : trim (trim s) = trim s.
Proof.
  pose proof (trim_head s) as Hh. unfold trim at 1.
  rewrite trimStart_fixed by exact Hh.
  unfold trim, trimEnd. rewrite rev_involutive.
  rewrite (trimStart_fixed (trimStart (rev (trimStart s))))
    by apply trimStart_head.
  reflexivity.
Qed.

Lemma trimStart_keeps (c : char16) (s : jsstring) :
  In c s -> is_ws c = false -> In c (trimStart s).
Proof.
  intros Hin Hc. induction s as [|x r IH]; simpl; [destruct Hin|].
  destruct (is_ws x) eqn:E; [|exact Hin].
  destruct Hin as [->|Hin]; [congruence|now apply IH].
Qed.

(** A string with a character that is not white space is not trimmed to
    nothing. *)
Lemma trim_keeps (c : char16) (s : jsstring) :
  In c s -> is_ws c = false -> In c (trim s).
Proof.
  intros Hin Hc. unfold trim, trimEnd.
  apply in_rev. rewrite rev_involutive.
  apply trimStart_keeps; [|assumption].
  apply in_rev. rewrite rev_involutive. now apply trimStart_keeps.
Qed.

Lemma allWhitespace_no (c : char16) (w : jsstring) :
  is_ws c = false -> allWhitespace w -> ~ In c w.
Proof.
  intros Hc Hw Hin. unfold allWhitespace in Hw. rewrite Forall_forall in Hw.
  apply Hw in Hin. congruence.
Qed.

End TrimFacts.

Section LineFacts.

Lemma first_occurrence (c : char16) (l : jsstring) :
  In c l -> exists k v, l = k ++ c :: v /\ ~ In c k.
Proof.
  induction l as [|x r IH]; [intros []|].
  destruct (N.eq_dec x c) as [->|Hne].
  - intros _. exists [], r. split; [reflexivity|intros []].
  - intros [Heq|Hin]; [congruence|].
    destruct (IH Hin) as (k & v & -> & Hk).
    exists (x :: k), v. split; [reflexivity|].
    intros [Hx|Hx]; [congruence|contradiction].
Qed.

(** White space after a header line changes neither its key nor its
    value. *)
Lemma parseHeaderLine_app_ws (l w : jsstring) :
  allWhitespace w -> parseHeaderLine (l ++ w) = parseHeaderLine l.
Proof.
  intros Hw.
  assert (Hcw : ~ In COLON w) by now apply allWhitespace_no.
  destruct (includes COLON l) eqn:E.
  - apply includes_In, first_occurrence in E as (k & v & -> & Hk).
    rewrite <- app_assoc. simpl app.
    rewrite !parseHeaderLine_colon by assumption.
    now rewrite trim_app_ws.
  - apply includes_not_In in E.
    rewrite !parseHeaderLine_no_colon; [reflexivity|assumption|].
    intros Hin. apply in_app_or in Hin. tauto.
Qed.

Lemma fold_headerStep_ext (f : jsstring -> jsstring) (hl : list jsstring)
    (o : object) :
  (forall l, parseHeaderLine (f l) = parseHeaderLine l) ->
  fold_left headerStep (List.map f hl) o = fold_left headerStep hl o.
Proof.
  intros Hf. revert o. induction hl as [|l r IH]; intros o; [reflexivity|].
  simpl. rewrite IH. unfold headerStep. now rewrite Hf.
Qed.

(** The lines of a text that begins with lines free of line breaks. *)
Lemma split_join_app (sep : char16) (ls : list jsstring) (t : jsstring) :
  ls <> [] -> Forall (fun l => ~ In sep l) ls ->
  split sep (join [sep] ls ++ sep :: t) = ls ++ split sep t.
Proof.
  induction ls as [|l r IH]; [congruence|]. intros _ H.
  inversion H as [|? ? Hl Hr]; subst. destruct r as [|l' r'].
  - simpl. now apply split_app.
  - rewrite join_cons by discriminate. simpl app at 1.
    rewrite <- !app_assoc. simpl app at 2.
    rewrite split_app by assumption.
    change ((l :: l' :: r') ++ split sep t)
      with (l :: ((l' :: r') ++ split sep t)).
    f_equal. apply IH; [discriminate|assumption].
Qed.

End LineFacts.

(** X1: a template whose first line is empty after trimming, the empty
    file among them, has no header lines: parsing fails and reports From,
    To and Subject, all three. *)
Theorem leading_blank_line_reports_all_fields
    (fs : FileSystem) (templateFile content b : jsstring)
    (rest : list jsstring) :
  fs templateFile = Some content ->
  split NL content = b :: rest -> trim b = [] ->
  parseEmailTemplate fs templateFile = inl (FieldRequired MANDATORY_FIELDS)
  /\ console_error (FieldRequired MANDATORY_FIELDS)
     = lit "Error: From, To, Subject field is required in email template!".
Proof.
  intros Hfs Hsplit Hb. split; [|reflexivity].
  unfold parseEmailTemplate. rewrite Hfs.
  rewrite (parseContent_blank content [] b rest Hsplit);
    [reflexivity|constructor|assumption].
Qed.

Lemma leading_blank_line_reports_all_fields_witness :
  parseEmailTemplate (singleFile []) defaultFile
    = inl (FieldRequired MANDATORY_FIELDS)
  /\ console_error (FieldRequired MANDATORY_FIELDS)
     = lit "Error: From, To, Subject field is required in email template!".
Proof.
  apply (leading_blank_line_reports_all_fields (singleFile []) defaultFile
           [] [] []); reflexivity.
Defined.

(** X2: white space (a carriage return, say) added at the end of every
    header line and of the separator line changes nothing: the parse of
    the text gives the same result, error or parsed email, and the body
    lines are taken as they are. *)
Theorem trailing_whitespace_ignored
    (w : jsstring) (hl : list jsstring) (b : jsstring)
    (rest : list jsstring) :
  allWhitespace w -> ~ In NL w ->
  Forall (fun l => ~ In NL l) (hl ++ b :: rest) ->
  Forall (fun l => trim l <> []) hl -> trim b = [] ->
  parseContent
    (join [NL] (List.map (fun l => l ++ w) hl ++ (b ++ w) :: rest))
  = parseContent (join [NL] (hl ++ b :: rest)).
Proof.
  intros Hw Hnl Hlines Hhl Hb.
  apply Forall_app in Hlines as [Hhl_nl Hrest]. inversion Hrest as [|? ? Hb_nl Hrest_nl]; subst.
  assert (Hs1 : split NL (join [NL] (List.map (fun l => l ++ w) hl
                                       ++ (b ++ w) :: rest))
                = List.map (fun l => l ++ w) hl ++ (b ++ w) :: rest).
  { apply split_join; [now destruct hl|].
    apply Forall_app. split.
    - apply Forall_forall. intros l Hl.
      apply in_map_iff in Hl as (l0 & <- & Hl0).
      rewrite Forall_forall in Hhl_nl. intros Hin.
      apply in_app_or in Hin as [Hin|Hin]; [now apply (Hhl_nl l0)|contradiction].
    - constructor; [|assumption]. intros Hin.
      apply in_app_or in Hin as [Hin|Hin]; contradiction. }
  assert (Hs2 : split NL (join [NL] (hl ++ b :: rest)) = hl ++ b :: rest).
  { apply split_join; [now destruct hl|].
    apply Forall_app. split; [assumption|now constructor]. }
  assert (Hhl' : Forall (fun l => trim l <> [])
                   (List.map (fun l => l ++ w) hl)).
  { apply Forall_forall. intros l Hl.
    apply in_map_iff in Hl as (l0 & <- & Hl0).
    rewrite trim_app_ws by assumption.
    rewrite Forall_forall in Hhl. now apply Hhl. }
  assert (Hb' : trim (b ++ w) = []) by now rewrite trim_app_ws.
  rewrite (parseContent_blank _ _ _ _ Hs1 Hhl' Hb').
  rewrite (parseContent_blank _ _ _ _ Hs2 Hhl Hb).
  unfold parseHeaders.
  rewrite (fold_headerStep_ext (fun l => l ++ w))
    by (intros l; now apply parseHeaderLine_app_ws).
  reflexivity.
Qed.

Lemma trailing_whitespace_ignored_witness :
  parseContent
    (text [lit "From: a@x.com" ++ [CR]; lit "To: b@x.com" ++ [CR];
           lit "Subject: Hi" ++ [CR]; [CR]; lit "Hello there"])
  = parseContent sampleTemplate.
Proof.
  apply (trailing_whitespace_ignored [CR]
           [lit "From: a@x.com"; lit "To: b@x.com"; lit "Subject: Hi"]
           [] [lit "Hello there"]).
  - repeat constructor.
  - vm_compute. intuition discriminate.
  - repeat constructor; vm_compute; intuition discriminate.
  - repeat constructor; vm_compute; discriminate.
  - reflexivity.
Defined.

(** ** The order of [Object.keys] *)

Section KeyOrderFacts.

Lemma index_keys_spec (o : object) :
  Forall (fun nk => array_index (snd nk) = Some (fst nk)) (index_keys o).
Proof.
  induction o as [|[k v] r IH]; simpl; [constructor|].
  destruct (array_index k) as [n|] eqn:E; [|assumption].
  clear - IH E. induction IH as [|[m k'] l Hm Hl IHl]; simpl.
  - repeat constructor. assumption.
  - destruct (n <=? m); constructor; try assumption.
    now constructor.
Qed.

Lemma ascending_cons (a : N) (l : list N) :
  ascending (a :: l) = true <->
  match l with b :: _ => a <= b | [] => True end /\ ascending l = true.
Proof.
  destruct l as [|b r]; simpl.
  - tauto.
  - rewrite andb_true_iff, N.leb_le. tauto.
Qed.

Lemma insert_index_ascending (n : N) (k : jsstring)
    (l : list (N * jsstring)) :
  ascending (List.map fst l) = true ->
  ascending (List.map fst (insert_index n k l)) = true.
Proof.
  induction l as [|[m k'] r IH]; [reflexivity|]. intros H.
  cbn [insert_index]. destruct (n <=? m) eqn:E.
  - cbn [List.map fst]. apply ascending_cons. split; [|exact H].
    now apply N.leb_le.
  - apply N.leb_gt in E. cbn [List.map fst] in *.
    apply ascending_cons in H as [Hhd Htl].
    apply ascending_cons. split; [|now apply IH].
    destruct r as [|[m' k''] r']; cbn [insert_index List.map fst].
    + lia.
    + destruct (n <=? m'); cbn [List.map fst]; [lia|assumption].
Qed.

Lemma index_keys_ascending (o : object) :
  ascending (List.map fst (index_keys o)) = true.
Proof.
  induction o as [|[k v] r IH]; simpl; [reflexivity|].
  destruct (array_index k); [now apply insert_index_ascending|assumption].
Qed.

Lemma string_keys_filter (o : object) :
  string_keys o = filter (fun k => negb (isIndex k)) (creation_order o).
Proof.
  unfold creation_order, isIndex.
  induction o as [|[k v] r IH]; simpl; [reflexivity|].
  destruct (array_index k); simpl; now rewrite IH.
Qed.

Lemma index_keys_perm (o : object) :
  Permutation (List.map snd (index_keys o))
    (filter isIndex (creation_order o)).
Proof.
  unfold creation_order, isIndex.
  induction o as [|[k v] r IH]; simpl; [constructor|].
  destruct (array_index k) as [n|]; [|assumption].
  eapply perm_trans; [apply Permutation_map, insert_index_perm|].
  simpl. now constructor.
Qed.

Lemma indexOf_index_keys (o : object) :
  List.map indexOf (List.map snd (index_keys o))
    = List.map fst (index_keys o).
Proof.
  pose proof (index_keys_spec o) as H. rewrite map_map.
  induction H as [|[n k] l Hn _ IH]; [reflexivity|].
  simpl in *. unfold indexOf at 1. now rewrite Hn, IH.
Qed.

End KeyOrderFacts.

(** X3: the keys that [createMessage] iterates over are the array-index
    keys of the parsed header lines in ascending numeric order, followed by
    the other keys in the order in which the header lines first wrote
    them. *)
Theorem serialization_order_of_keys (hl : list jsstring) :
  exists idx,
    keys (parseHeaders hl)
      = idx ++ filter (fun k => negb (isIndex k)) (insertionOrder hl)
    /\ Permutation idx (filter isIndex (insertionOrder hl))
    /\ ascending (List.map indexOf idx) = true.
Proof.
  exists (List.map snd (index_keys (parseHeaders hl))).
  rewrite <- creation_order_parseHeaders. split; [|split].
  - unfold keys. now rewrite string_keys_filter.
  - apply index_keys_perm.
  - rewrite indexOf_index_keys. apply index_keys_ascending.
Qed.

(** ** Parsing a serialized message again *)

Section ReparseFacts.

Lemma index_keys_ext (o1 o2 : object) :
  creation_order o1 = creation_order o2 ->
  index_keys o1 = index_keys o2 /\ string_keys o1 = string_keys o2.
Proof.
  unfold creation_order. revert o2.
  induction o1 as [|[k v] r IH]; intros [|[k' v'] r'] H; simpl in H;
    try discriminate; [now split|].
  injection H as <- Hr. destruct (IH r' Hr) as [Hi Hs]. simpl.
  rewrite Hi, Hs. now split.
Qed.

Lemma keys_ext (o1 o2 : object) :
  creation_order o1 = creation_order o2 -> keys o1 = keys o2.
Proof.
  intros H. destruct (index_keys_ext o1 o2 H) as [Hi Hs].
  unfold keys. now rewrite Hi, Hs.
Qed.

Lemma creation_order_objectWithKeys (ks : list jsstring) :
  creation_order (objectWithKeys ks) = ks.
Proof.
  unfold creation_order, objectWithKeys. rewrite map_map. apply map_id.
Qed.

Lemma index_keys_strings (ss : list jsstring) :
  Forall (fun k => isIndex k = false) ss ->
  index_keys (objectWithKeys ss) = []
  /\ string_keys (objectWithKeys ss) = ss.
Proof.
  induction 1 as [|k r Hk _ [IHi IHs]]; [now split|].
  unfold isIndex in Hk. simpl.
  destruct (array_index k); [discriminate|]. rewrite IHi, IHs. now split.
Qed.

Lemma index_keys_app_strings (ks ss : list jsstring) :
  Forall (fun k => isIndex k = false) ss ->
  index_keys (objectWithKeys (ks ++ ss)) = index_keys (objectWithKeys ks)
  /\ string_keys (objectWithKeys (ks ++ ss))
     = string_keys (objectWithKeys ks) ++ ss.
Proof.
  intros Hss. induction ks as [|k r [IHi IHs]].
  - simpl app. destruct (index_keys_strings ss Hss) as [-> ->]. now split.
  - simpl. rewrite IHi, IHs. destruct (array_index k); now split.
Qed.

Lemma insert_index_front (n : N) (k : jsstring) (l : list (N * jsstring)) :
  ascending (n :: List.map fst l) = true ->
  insert_index n k l = (n, k) :: l.
Proof.
  destruct l as [|[m k'] r]; [reflexivity|]. intros H.
  cbn [List.map fst] in H. apply ascending_cons in H as [H _].
  cbn [insert_index]. apply N.leb_le in H. now rewrite H.
Qed.

(** Sorting the index keys again changes nothing. *)
Lemma index_keys_sorted_id (l : list (N * jsstring)) :
  Forall (fun nk => array_index (snd nk) = Some (fst nk)) l ->
  ascending (List.map fst l) = true ->
  index_keys (objectWithKeys (List.map snd l)) = l
  /\ string_keys (objectWithKeys (List.map snd l)) = [].
Proof.
  induction 1 as [|[n k] r Hn _ IH]; [now split|]. intros Hasc.
  cbn [List.map fst] in Hasc.
  destruct (IH (proj2 (proj1 (ascending_cons _ _) Hasc))) as [IHi IHs].
  simpl in *. rewrite Hn, IHi, IHs. split; [|reflexivity].
  now apply insert_index_front.
Qed.

(** An object created in the order of another object's [Object.keys] has
    the same [Object.keys]. *)
Lemma keys_stable (o o' : object) :
  creation_order o' = keys o -> keys o' = keys o.
Proof.
  intros H.
  rewrite (keys_ext o' (objectWithKeys (keys o)))
    by now rewrite creation_order_objectWithKeys.
  unfold keys at 2.
  assert (Hss : Forall (fun k => isIndex k = false) (string_keys o)).
  { rewrite string_keys_filter. apply Forall_forall. intros k Hk.
    apply filter_In in Hk as [_ Hk]. now apply negb_true_iff in Hk. }
  destruct (index_keys_app_strings (List.map snd (index_keys o))
              (string_keys o) Hss) as [Hi Hs].
  destruct (index_keys_sorted_id (index_keys o) (index_keys_spec o)
              (index_keys_ascending o)) as [Hi' Hs'].
  unfold keys at 1. now rewrite Hi, Hs, Hi', Hs'.
Qed.

Lemma parseHeaderLine_key_trimmed (l k v : jsstring) :
  parseHeaderLine l = Some (k, v) -> exists y, k = trim y.
Proof.
  unfold parseHeaderLine. destruct (includes COLON l); [|discriminate].
  destruct (split COLON l) as [|key parts]; [discriminate|].
  intros H. injection H as <- _. now exists key.
Qed.

Lemma fold_trimmedKey (hl : list jsstring) (o : object) :
  Forall trimmedKey o -> Forall trimmedKey (fold_left headerStep hl o).
Proof.
  apply fold_Forall. intros l k v _ E.
  now apply parseHeaderLine_key_trimmed in E.
Qed.

Lemma parseHeaders_no_proto (hl : list jsstring) :
  ~ In PROTO (creation_order (parseHeaders hl)).
Proof.
  rewrite creation_order_parseHeaders. intros H.
  apply insertionOrder_not_proto in H. rewrite eqb_refl in H. discriminate.
Qed.

Lemma in_creation_order (P : jsstring * value -> Prop) (o : object)
    (k : jsstring) :
  Forall P o -> In k (creation_order o) -> exists v, P (k, v).
Proof.
  intros Ho Hk. unfold creation_order in Hk.
  apply in_map_iff in Hk as ([k0 v0] & <- & Hin).
  rewrite Forall_forall in Ho. exists v0. now apply Ho.
Qed.

(** A serialized header line parses to its key and value. *)
Lemma headerLine_reparse (o : object) (k : jsstring) :
  Forall trimmedEntry o -> Forall trimmedKey o ->
  In k (creation_order o) ->
  parseHeaderLine (headerLine o k) = Some (k, orEmpty (get o k))
  /\ get o k = Some (orEmpty (get o k)).
Proof.
  intros Ht Hk Hin.
  destruct (get_trimmed o k Ht Hin) as [Hc [x Hx]].
  destruct (in_creation_order trimmedKey o k Hk Hin) as (v & y & Hy).
  simpl in Hy. unfold headerLine. rewrite Hx, orEmpty_some.
  split; [|reflexivity].
  change (k ++ [COLON; SPACE] ++ trim x)
    with (k ++ COLON :: ([SPACE] ++ trim x)).
  rewrite parseHeaderLine_colon by assumption.
  rewrite trim_skip_ws by (repeat constructor).
  now rewrite Hy, !trim_idem.
Qed.

Lemma writtenPairs_headerLines (o : object) (ks : list jsstring) :
  Forall trimmedEntry o -> Forall trimmedKey o ->
  (forall k, In k ks -> In k (creation_order o)) ->
  writtenPairs (List.map (headerLine o) ks)
    = List.map (fun k => (k, orEmpty (get o k))) ks.
Proof.
  intros Ht Hk. induction ks as [|k r IH]; intros Hin; [reflexivity|].
  simpl.
  destruct (headerLine_reparse o k Ht Hk (Hin k (or_introl eq_refl)))
    as [-> _].
  rewrite IH by (intros; apply Hin; now right). reflexivity.
Qed.

Lemma lastValue_map (f : jsstring -> jsstring) (ks : list jsstring)
    (k : jsstring) :
  lastValue k (List.map (fun k => (k, f k)) ks)
    = if mem k ks then Some (f k) else None.
Proof.
  induction ks as [|k0 r IH]; [reflexivity|]. simpl. rewrite IH.
  destruct (mem k r); [now rewrite orb_true_r|]. rewrite orb_false_r.
  destruct (JSString.eqb k0 k) eqn:E; [|reflexivity].
  apply eqb_eq in E. now subst.
Qed.

Lemma firstOccurrences_NoDup (seen ks : list jsstring) :
  NoDup ks -> (forall k, In k ks -> mem k seen = false) ->
  firstOccurrences seen ks = ks.
Proof.
  intros Hnd. revert seen. induction Hnd as [|k r Hk Hr IH]; intros seen H;
    [reflexivity|].
  rewrite firstOccurrences_cons, (H k) by now left. f_equal.
  apply IH. intros k' Hk'. simpl.
  rewrite (H k') by now right. rewrite orb_false_r.
  apply eqb_neq. intros ->. contradiction.
Qed.

Lemma headerLine_nonblank (o : object) (k : jsstring) :
  trim (headerLine o k) <> [].
Proof.
  assert (H : In COLON (trim (headerLine o k))).
  { apply trim_keeps; [|reflexivity]. unfold headerLine.
    apply in_or_app. right. now left. }
  intros E. rewrite E in H. destruct H.
Qed.

Lemma join_snoc (sep : jsstring) (ps : list jsstring) (b : jsstring) :
  ps <> [] -> join sep (ps ++ [b]) = join sep ps ++ sep ++ b.
Proof. intros H. now rewrite join_app by (assumption || discriminate). Qed.

End ReparseFacts.

(** X4: the message serialized from a parsed template is itself a
    template that parses: its headers have the same values under every key
    and the same key order, its body is the same, and serializing it again
    gives the same message. *)
Theorem serialized_message_parses_back
    (content : jsstring) (p : ParsedEmail) :
  parseContent content = inr p ->
  exists p',
    parseContent (message (headers p) (body p)) = inr p'
    /\ (forall k, get (headers p') k = get (headers p) k)
    /\ keys (headers p') = keys (headers p)
    /\ body p' = body p
    /\ message (headers p') (body p') = message (headers p) (body p).
Proof.
  intros Hp.
  pose proof (parsed_keys_nonempty content p Hp) as Hne.
  destruct (parseContent_inr content p Hp) as (Hh & Hmiss & _).
  set (h := headers p) in *. set (b := body p).
  assert (Ht : Forall trimmedEntry h)
    by (rewrite Hh; apply fold_trimmed; constructor).
  assert (Hk : Forall trimmedKey h)
    by (rewrite Hh; apply fold_trimmedKey; constructor).
  assert (Hl : Forall oneLineEntry h).
  { rewrite Hh. apply fold_oneLine; [apply headerBlock_one_line|constructor]. }
  assert (Hnp : ~ In PROTO (creation_order h))
    by (rewrite Hh; apply parseHeaders_no_proto).
  assert (Hnd : NoDup (keys h)).
  { apply (Permutation_NoDup (Permutation_sym (keys_perm h))).
    rewrite Hh. apply parseHeaders_NoDup. }
  set (L := List.map (headerLine h) (keys h)).
  assert (HL : L <> []) by (unfold L; destruct (keys h); [congruence|discriminate]).
  (* the lines of the message *)
  assert (Hsplit : split NL (message h b) = L ++ [] :: split NL b).
  { unfold message, messageParts. fold L.
    rewrite join_snoc by now destruct L.
    change ([NL] ++ b) with (NL :: b).
    rewrite split_join_app; [now rewrite <- app_assoc|now destruct L|].
    apply Forall_app. split; [|repeat constructor; intros []].
    apply Forall_forall. intros l Hin.
    apply in_map_iff in Hin as (k & <- & Hin).
    apply headerLine_oneLine; [assumption|now apply keys_In]. }
  assert (Hnb : Forall (fun l => trim l <> []) L).
  { apply Forall_forall. intros l Hin.
    apply in_map_iff in Hin as (k & <- & _). apply headerLine_nonblank. }
  (* the headers read back *)
  assert (Hget : forall k, get (parseHeaders L) k = get h k).
  { intros k. rewrite get_parseHeaders. unfold L.
    rewrite writtenPairs_headerLines, lastValue_map;
      try assumption; [|intros k'; apply keys_In].
    destruct (JSString.eqb k PROTO) eqn:Ek.
    - apply eqb_eq in Ek. subst k. symmetry. apply get_absent.
      rewrite has_own_mem. now apply mem_not_In.
    - destruct (mem k (keys h)) eqn:Em.
      + apply mem_In, keys_In in Em.
        now destruct (headerLine_reparse h k Ht Hk Em) as [_ <-].
      + symmetry. apply get_absent. rewrite has_own_mem.
        apply mem_not_In. apply mem_not_In in Em.
        intros Hin. now apply Em, keys_In. }
  assert (Hkeys : keys (parseHeaders L) = keys h).
  { apply keys_stable. rewrite creation_order_parseHeaders.
    unfold insertionOrder, L.
    rewrite writtenPairs_headerLines;
      try assumption; [|intros k'; apply keys_In].
    rewrite map_map. simpl. rewrite map_id.
    apply firstOccurrences_NoDup; [assumption|].
    intros k Hin.
    change (mem k [PROTO]) with (JSString.eqb PROTO k || false).
    rewrite orb_false_r. apply eqb_neq. intros <-.
    now apply Hnp, keys_In. }
  assert (Hm : missingIn (parseHeaders L) = []).
  { rewrite <- Hmiss. unfold missingIn. apply filter_ext.
    intros f. now rewrite Hget. }
  rewrite (parseContent_blank _ L [] (split NL b) Hsplit Hnb eq_refl), Hm.
  eexists. split; [reflexivity|]. cbn [headers body].
  rewrite join_split. repeat split; try assumption.
  unfold message, messageParts. rewrite Hkeys. do 3 f_equal.
  apply map_ext. intros k. unfold headerLine. now rewrite Hget.
Qed.

Lemma serialized_message_parses_back_witness :
  exists p',
    parseContent
      (message
         (parseHeaders (headerBlock tightTemplate)) (lit "Hello"))
      = inr p'
    /\ (forall k,
          get (headers p') k
            = get (parseHeaders (headerBlock tightTemplate)) k)
    /\ keys (headers p') = keys (parseHeaders (headerBlock tightTemplate))
    /\ body p' = lit "Hello"
    /\ message (headers p') (body p')
       = message (parseHeaders (headerBlock tightTemplate)) (lit "Hello").
Proof.
  apply (serialized_message_parses_back tightTemplate
           (mkParsedEmail (parseHeaders (headerBlock tightTemplate))
              (lit "Hello"))).
  vm_compute. reflexivity.
Defined.

(** ** The payload *)

Section PayloadFacts.

Lemma wfb_wf (s : jsstring) : wfb s = true -> wf s.
Proof.
  unfold wfb, wf. rewrite forallb_forall, Forall_forall.
  intros H c Hc. now apply N.ltb_lt, H.
Qed.

Lemma wf_objectb_wf (o : object) : wf_objectb o = true -> wf_object o.
Proof.
  unfold wf_objectb, wf_object. rewrite forallb_forall, Forall_forall.
  intros H kv Hkv. specialize (H kv Hkv).
  apply andb_true_iff in H as [Hk Hv]. split; [now apply wfb_wf|].
  destruct (snd kv); [now apply wfb_wf|exact I].
Qed.

Lemma sextets_url_safe : forallb sextetUrlSafe sextets = true.
Proof. vm_compute. reflexivity. Qed.

Lemma toUrlChars_safe (s : jsstring) :
  Forall sextetChar s -> Forall (fun c => urlSafe c = true) (toUrlChars s).
Proof.
  induction 1 as [|c r (n & Hn & ->) _ IH]; [constructor|].
  rewrite toUrlChars_cons. apply Forall_app. split; [|assumption].
  pose proof sextets_url_safe as Hall. rewrite forallb_forall in Hall.
  specialize (Hall n (sextet_In n Hn)). unfold sextetUrlSafe in Hall.
  rewrite forallb_forall in Hall. now apply Forall_forall.
Qed.

End PayloadFacts.

(** X5: for every header map and body made of well-formed strings, the
    output of [createMessage] consists of letters, digits, [-] and [_]
    only: it has no [+], no [/] and no padding. *)
Theorem payload_is_url_safe (h : object) (b : jsstring) :
  wf_object h -> wf b ->
  Forall (fun c => urlSafe c = true) (createMessage h b)
  /\ ~ In 43 (createMessage h b) /\ ~ In 47 (createMessage h b)
  /\ ~ In Base64.PAD (createMessage h b).
Proof.
  intros Hh Hb.
  assert (H : Forall (fun c => urlSafe c = true) (createMessage h b)).
  { unfold createMessage.
    rewrite to_url_encode by now apply utf8_bytes, message_wf.
    apply toUrlChars_safe, unpadded_sextets, utf8_bytes.
    now apply message_wf. }
  split; [assumption|]. rewrite Forall_forall in H.
  repeat split; intros Hin; apply H in Hin; discriminate.
Qed.

Lemma payload_is_url_safe_witness :
  Forall (fun c => urlSafe c = true)
    (createMessage (parseHeaders (headerBlock sampleTemplate))
       (lit "Hello there"))
  /\ ~ In 43 (createMessage (parseHeaders (headerBlock sampleTemplate))
               (lit "Hello there"))
  /\ ~ In 47 (createMessage (parseHeaders (headerBlock sampleTemplate))
               (lit "Hello there"))
  /\ ~ In Base64.PAD
         (createMessage (parseHeaders (headerBlock sampleTemplate))
            (lit "Hello there")).
Proof.
  apply (payload_is_url_safe (parseHeaders (headerBlock sampleTemplate))
           (lit "Hello there")).
  - apply wf_objectb_wf. vm_compute. reflexivity.
  - apply wfb_wf. vm_compute. reflexivity.
Defined.

(** X6: the payload determines the message: two messages made of
    well-formed strings that [createMessage] encodes to the same payload
    have the same UTF-8 bytes, and are the same text when neither has an
    unpaired surrogate. *)
Theorem payload_determines_message
    (h h' : object) (b b' : jsstring) :
  wf_object h -> wf b -> wf_object h' -> wf b' ->
  createMessage h b = createMessage h' b' ->
  Utf8.encode (message h b) = Utf8.encode (message h' b')
  /\ (Utf8.paired (message h b) = true ->
      Utf8.paired (message h' b') = true ->
      message h b = message h' b').
Proof.
  intros Hh Hb Hh' Hb' Heq.
  pose proof (message_wf h b Hh Hb) as Hm.
  pose proof (message_wf h' b' Hh' Hb') as Hm'.
  assert (Hbytes : Utf8.encode (message h b) = Utf8.encode (message h' b')).
  { pose proof (decode_url_to_url _ (utf8_bytes _ Hm)) as H1.
    pose proof (decode_url_to_url _ (utf8_bytes _ Hm')) as H2.
    unfold createMessage in Heq. rewrite Heq in H1. congruence. }
  split; [assumption|]. intros Hp Hp'.
  pose proof (utf8_decode_encode _ Hm Hp) as H1.
  pose proof (utf8_decode_encode _ Hm' Hp') as H2.
  rewrite Hbytes in H1. congruence.
Qed.

Lemma payload_determines_message_witness :
  Utf8.encode (message (parseHeaders (headerBlock sampleTemplate))
                 (lit "Hello there"))
  = Utf8.encode (message (parseHeaders (headerBlock sampleTemplate))
                   (lit "Hello there")).
Proof.
  assert (Hh : wf_object (parseHeaders (headerBlock sampleTemplate)))
    by (apply wf_objectb_wf; vm_compute; reflexivity).
  assert (Hb : wf (lit "Hello there"))
    by (apply wfb_wf; vm_compute; reflexivity).
  exact (proj1 (payload_determines_message
                  (parseHeaders (headerBlock sampleTemplate))
                  (parseHeaders (headerBlock sampleTemplate))
                  (lit "Hello there") (lit "Hello there")
                  Hh Hb Hh Hb eq_refl)).
Defined.

(** * The sender *)

Section SenderFacts.

Import GmailSender.

Context {C : Type}.

Implicit Types (w : @World C) (s : @Sender C) (fs : FileSystem).

Ltac auth_cases :=
  repeat match goal with
         | |- context [match ?x with _ => _ end] =>
             lazymatch x with
             | context [match _ with _ => _ end] => fail
             | _ => destruct x eqn:?
             end
         end.

Lemma writeFileSync_same fs (path data : jsstring) :
  writeFileSync fs path data path = Some data.
Proof. unfold writeFileSync. now rewrite eqb_refl. Qed.

Lemma writeFileSync_other fs (path data p : jsstring) :
  p <> path -> writeFileSync fs path data p = fs p.
Proof.
  intros H. unfold writeFileSync. apply eqb_neq in H. now rewrite H.
Qed.

Ltac auth_unfold :=
  unfold ensureAuthentication, getAccessToken, checkToken, saveToken,
    setCredentials;
  cbn [oAuth2Client gmail].

Ltac fs_solve :=
  cbn [fst snd oAuth2Client gmail] in *;
  repeat match goal with
         | |- _ /\ _ => split
         | |- forall _, _ => intro
         end;
  try congruence;
  repeat first
    [ rewrite writeFileSync_same
    | rewrite writeFileSync_other by assumption ];
  try reflexivity; try congruence; try discriminate.

(** X7: [ensureAuthentication] changes no file other than [token.json];
    when it changes that file, the new text is the serialized credentials
    that the client holds afterwards; and when it sets [gmail], the token
    file exists. *)
Theorem token_file_effects w s fs :
  (forall p, p <> TOKEN_PATH ->
             snd (ensureAuthentication w s fs) p = fs p)
  /\ (snd (ensureAuthentication w s fs) TOKEN_PATH = fs TOKEN_PATH
      \/ exists c,
           oAuth2Client (fst (ensureAuthentication w s fs)) = Some c
           /\ snd (ensureAuthentication w s fs) TOKEN_PATH
              = Some (JSON_stringify w c))
  /\ (gmail s = false ->
      gmail (fst (ensureAuthentication w s fs)) = true ->
      snd (ensureAuthentication w s fs) TOKEN_PATH <> None).
Proof.
  auth_unfold. auth_cases; cbn [oAuth2Client gmail] in *.
  all: try (fs_solve; fail).
  all: try (split; [fs_solve|split; [left; fs_solve|fs_solve]]; fail).
  all: split; [fs_solve|split; [right; eexists; fs_solve|fs_solve]].
Qed.

(** X8: [gmail] is never set without [oAuth2Client]: a sender for which
    this holds still has it after [ensureAuthentication] and after
    [sendEmail], whatever the collaborators answer. *)
Theorem sender_stays_consistent w s fs (templateFile : jsstring) :
  consistent s ->
  consistent (fst (ensureAuthentication w s fs))
  /\ consistent (fst (fst (GmailSender.sendEmail w s fs templateFile))).
Proof.
  intros Hs.
  assert (H : consistent (fst (ensureAuthentication w s fs))).
  { unfold consistent in *. auth_unfold.
    auth_cases; cbn [fst oAuth2Client gmail] in *; intros Hg;
      try discriminate; specialize (Hs Hg); congruence. }
  split; [assumption|]. unfold GmailSender.sendEmail.
  destruct (ensureAuthentication w s fs). exact H.
Qed.

(** X9: an authentication that fails after the client was created is
    final: when the environment is complete and [ensureAuthentication]
    ends without [gmail], the sender keeps a client, so every later
    [sendEmail] on it returns at once as not authenticated, reads no
    template, sends nothing and changes no file, whatever the
    collaborators answer then. *)
Theorem failed_authentication_is_final
    w s fs w' fs' (templateFile : jsstring) :
  oAuth2Client s = None ->
  environmentIncomplete w = false ->
  gmail (fst (ensureAuthentication w s fs)) = false ->
  oAuth2Client (fst (ensureAuthentication w s fs)) <> None
  /\ GmailSender.sendEmail w' (fst (ensureAuthentication w s fs)) fs'
       templateFile
     = (fst (ensureAuthentication w s fs), fs', NotAuthenticated).
Proof.
  intros Hs Henv Hg.
  assert (Hc : oAuth2Client (fst (ensureAuthentication w s fs)) <> None).
  { clear Hg. unfold environmentIncomplete in Henv. auth_unfold.
    rewrite Hs, Henv.
    auth_cases; cbn [fst oAuth2Client gmail] in *; congruence. }
  split; [assumption|].
  unfold GmailSender.sendEmail.
  unfold ensureAuthentication at 1.
  destruct (oAuth2Client (fst (ensureAuthentication w s fs)));
    [|congruence].
  now rewrite Hg.
Qed.

(** X10: a new sender obtains a client exactly when the three environment
    variables are set and not empty: when one is missing or empty, [main]
    returns as not authenticated with the sender and the files unchanged;
    otherwise the sender holds a client after [main]. *)
Theorem client_created_iff_environment_complete w fs :
  (environmentIncomplete w = true ->
   GmailSender.main w fs = (newSender, fs, NotAuthenticated))
  /\ (environmentIncomplete w = false ->
      oAuth2Client (fst (fst (GmailSender.main w fs))) <> None).
Proof.
  unfold GmailSender.main, GmailSender.sendEmail. split; intros Henv.
  - unfold ensureAuthentication, environmentIncomplete in *.
    cbn [newSender oAuth2Client]. now rewrite Henv.
  - unfold environmentIncomplete in Henv.
    destruct (ensureAuthentication w newSender fs) as [s' fs'] eqn:E.
    cbn [fst]. revert E. auth_unfold. cbn [newSender oAuth2Client gmail].
    rewrite Henv.
    auth_cases; intros E; injection E as <- _;
      cbn [oAuth2Client]; congruence.
Qed.

(** X11: [sendEmail] reports success only when authentication left a
    [gmail] client, the template file exists and parses, and the send
    operation accepted the payload made from the parsed email; that
    payload decodes to the message when the file text is well formed. *)
Theorem sendEmail_success_means_sent
    w s fs (templateFile : jsstring) :
  succeeded (snd (GmailSender.sendEmail w s fs templateFile)) = true ->
  gmail (fst (ensureAuthentication w s fs)) = true
  /\ exists content p id,
       snd (ensureAuthentication w s fs) templateFile = Some content
       /\ parseContent content = inr p
       /\ falsy (get (headers p) (lit "To")) = false
       /\ send w (createMessage (headers p) (body p)) = Some id
       /\ snd (GmailSender.sendEmail w s fs templateFile)
          = Sent (createMessage (headers p) (body p)) id
       /\ (wf content ->
           Base64.decode_url (createMessage (headers p) (body p))
           = Some (Utf8.encode (message (headers p) (body p)))).
Proof.
  unfold GmailSender.sendEmail.
  destruct (ensureAuthentication w s fs) as [s' fs'].
  cbn [fst snd]. destruct (gmail s'); [|discriminate].
  unfold SendEmail.sendEmail.
  destruct (parseEmailTemplate fs' templateFile) as [e|p] eqn:Ep;
    [discriminate|].
  destruct (falsy (get (headers p) (lit "To"))) eqn:Eto; [discriminate|].
  destruct (send w (createMessage (headers p) (body p))) as [id|] eqn:Es;
    [|discriminate].
  intros _. split; [reflexivity|].
  unfold parseEmailTemplate in Ep.
  destruct (fs' templateFile) as [content|] eqn:Ef; [|discriminate].
  exists content, p, id. repeat split; try assumption.
  intros Hwf. apply (sent_payload_decodes fs' templateFile content p);
    try assumption.
  unfold parseEmailTemplate. now rewrite Ef.
Qed.

End SenderFacts.

Section SenderExamples.

Import GmailSender.

Lemma token_file_effects_witness :
  snd (ensureAuthentication acceptingWorld newSender (fun _ => None))
    TOKEN_PATH <> None.
Proof.
  apply (token_file_effects acceptingWorld newSender (fun _ => None));
    reflexivity.
Defined.

Lemma sender_stays_consistent_witness :
  consistent (fst (ensureAuthentication rejectingWorld newSender
                     (fun _ => None)))
  /\ consistent (fst (fst (GmailSender.sendEmail rejectingWorld newSender
                             (fun _ => None) defaultFile))).
Proof.
  apply (sender_stays_consistent rejectingWorld newSender (fun _ => None)
           defaultFile).
  intros H. discriminate.
Defined.

Lemma failed_authentication_is_final_witness :
  GmailSender.sendEmail acceptingWorld
    (fst (ensureAuthentication rejectingWorld newSender (fun _ => None)))
    (singleFile sampleTemplate) defaultFile
  = (fst (ensureAuthentication rejectingWorld newSender (fun _ => None)),
     singleFile sampleTemplate, NotAuthenticated).
Proof.
  apply (failed_authentication_is_final rejectingWorld newSender
           (fun _ => None) acceptingWorld (singleFile sampleTemplate)
           defaultFile); reflexivity.
Defined.

Lemma client_created_iff_environment_complete_witness :
  GmailSender.main incompleteWorld (singleFile sampleTemplate)
  = (newSender, singleFile sampleTemplate, NotAuthenticated).
Proof.
  apply (client_created_iff_environment_complete incompleteWorld
           (singleFile sampleTemplate)).
  reflexivity.
Defined.

Lemma sendEmail_success_means_sent_witness :
  gmail (fst (ensureAuthentication acceptingWorld newSender
                (singleFile sampleTemplate))) = true
  /\ exists content p id,
       snd (ensureAuthentication acceptingWorld newSender
              (singleFile sampleTemplate)) defaultFile = Some content
       /\ parseContent content = inr p
       /\ falsy (get (headers p) (lit "To")) = false
       /\ send acceptingWorld (createMessage (headers p) (body p)) = Some id
       /\ snd (GmailSender.sendEmail acceptingWorld newSender
                 (singleFile sampleTemplate) defaultFile)
          = Sent (createMessage (headers p) (body p)) id
       /\ (wf content ->
           Base64.decode_url (createMessage (headers p) (body p))
           = Some (Utf8.encode (message (headers p) (body p)))).
Proof.
  apply (sendEmail_success_means_sent acceptingWorld newSender
           (singleFile sampleTemplate) defaultFile).
  vm_compute. reflexivity.
Defined.

End SenderExamples.
